(** * Recurrence quantification and geometric scoring

    A shallow embedding of [RQA.py] and [GeometricScoring.py].

    Conventions of the embedding.
    - A numpy 2-D array is a list of rows ([matrix]); [shape0] is the number
      of rows and [shape1] the length of the first row.
    - The entries of a binary (recurrence) matrix and of the sequences given
      to the run scanner are integers ([Z]); the scanner compares them with
      [0] and [1] exactly as the source does.
    - A Python [dict] from run length to count is a [gmap Z Z].
    - A finite float64 is held by its exact value, a rational ([Q]).  Where
      a result depends on how float64 rounds (the neighbour count of
      [CSMToBinary], the entries of [getCSM]) the rounding is modelled
      ([f64_round], [getCSM_float64]).  The statistics of [getRQAStats] are
      exact rationals; [getCSM], beside its float64 form, and
      [getSlidingWindow] are given over the real numbers ([R]), which the
      code approximates.
    - A raised exception is the result [None]. *)

From Stdlib Require Import ZArith QArith Qabs Qfield Qround Qreals Reals Psatz.
From Stdlib Require Import String.
From stdpp Require Import gmap list fin_maps.

Local Open Scope Z_scope.

(** ** Arrays *)

Abbreviation matrix A := (list (list A)) (only parsing).

Definition is_matrix {A} (N M : nat) (D : matrix A) : Prop :=
  length D = N ∧ Forall (λ row, length row = M) D.

Definition shape0 {A} (D : matrix A) : nat := length D.

Definition shape1 {A} (D : matrix A) : nat := from_option length 0%nat (head D).

(** [D.size] *)
Definition size2 {A} (D : matrix A) : nat := length (concat D).

(** [D[i, j]], with 0 outside the array (used only inside the bounds). *)
Definition entry (D : matrix Z) (i j : nat) : Z :=
  default 0 (D !! i ≫= λ row, row !! j).

(** [np.zeros((n, m))] and [np.ones((n, m))] *)
Definition zeros (n m : nat) : matrix Z := replicate n (replicate m 0).
Definition ones (n m : nat) : matrix Z := replicate n (replicate m 1).

(** [D.T]: row [j] of the result lists the entries of column [j].  (An
    array without rows has no columns here, see [shape1].) *)
Definition transpose {A} (D : matrix A) : matrix A :=
  map (λ j, omap (λ row, row !! j) D) (seq 0 (shape1 D)).

(** [D.flatten()]: numpy's default is row-major (C) order. *)
Definition flatten {A} (D : matrix A) : list A := concat D.

(** [np.sum] of an integer array *)
Definition sumZ (l : list Z) : Z := foldr Z.add 0 l.

(** [np.sum] of a float array *)
Definition sumR (l : list R) : R := foldr Rplus 0%R l.

Definition binary (x : list Z) : Prop := Forall (λ v, v = 0 ∨ v = 1) x.

Definition binary_matrix (D : matrix Z) : Prop := Forall binary D.

(** ** float64 *)

(** A float64: a finite value, held exactly, an infinity or NaN.  The sign
    of a zero is not modelled. *)
Inductive f64 : Type :=
  | Fin (q : Q)
  | Inf (negative : bool)
  | NaN.

(** [2^e] for an integer [e] *)
Definition pow2 (e : Z) : Q :=
  if 0 <=? e then inject_Z (2 ^ e) else 1 # Z.to_pos (2 ^ (- e)).

(** The integer nearest to [q]; of two equally near, the even one. *)
Definition rne (q : Q) : Z :=
  let f := Qfloor q in
  match (q - inject_Z f ?= 1 # 2)%Q with
  | Lt => f
  | Gt => f + 1
  | Eq => if Z.even f then f else f + 1
  end.

(** The integer [g] with [2^g <= |q| < 2^(g+1)], for [q] other than 0. *)
Definition ilog2 (q : Q) : Z :=
  let g := Z.log2 (Z.abs (Qnum q)) - Z.log2 (Zpos (Qden q)) in
  if Qle_bool (pow2 g) (Qabs q) then g else g - 1.

(** The float64 that an operation returns for the exact result [q]: the
    nearest number with a significand of 53 bits (of two equally near, the
    one with the even significand), in steps of [2^-1074] below the normal
    range; a result that rounds beyond the largest finite float64 is an
    infinity. *)
Definition f64_round (q : Q) : f64 :=
  let q := Qred q in
  if Qeq_bool q 0 then Fin 0
  else
    let e := Z.max (ilog2 q - 52) (-1074) in
    let r := Qred (inject_Z (rne (q / pow2 e)) * pow2 e) in
    if Qle_bool (pow2 1024) (Qabs r) then Inf (Qnum r <? 0) else Fin r.

(** [-a], [a + b], [a - b], [a * b] and [a < b] on float64 *)
Definition neg64 (a : f64) : f64 :=
  match a with
  | Fin q => Fin (- q)
  | Inf s => Inf (negb s)
  | NaN => NaN
  end.

Definition add64 (a b : f64) : f64 :=
  match a, b with
  | NaN, _ | _, NaN => NaN
  | Fin x, Fin y => f64_round (x + y)
  | Inf s, Fin _ | Fin _, Inf s => Inf s
  | Inf s, Inf t => if Bool.eqb s t then Inf s else NaN
  end.

Definition sub64 (a b : f64) : f64 := add64 a (neg64 b).

Definition mul64 (a b : f64) : f64 :=
  match a, b with
  | NaN, _ | _, NaN => NaN
  | Fin x, Fin y => f64_round (x * y)
  | Inf s, Fin y | Fin y, Inf s =>
      if Qeq_bool y 0 then NaN else Inf (xorb s (Qnum y <? 0))
  | Inf s, Inf t => Inf (xorb s t)
  end.

Definition lt64 (a b : f64) : bool :=
  match a, b with
  | NaN, _ | _, NaN => false
  | Fin x, Fin y => negb (Qle_bool y x)
  | Fin _, Inf s => negb s
  | Inf s, Fin _ => s
  | Inf s, Inf t => s && negb t
  end.

(** [np.sqrt]: the float64 nearest to the square root.  [t] is the integer
    part of the root scaled by [2^k], which has more than 54 bits, and
    [sticky] tells whether the root lies strictly above it; that decides
    the rounding. *)
Definition sqrt64 (a : f64) : f64 :=
  match a with
  | NaN => NaN
  | Inf s => if s then NaN else Inf false
  | Fin q =>
      if Qeq_bool q 0 then Fin 0
      else if Qle_bool q 0 then NaN
      else
        let k := Z.max 0 (54 - ilog2 q / 2) in
        let n := Qnum q * 4 ^ k in
        let d := Zpos (Qden q) in
        let t := Z.sqrt (n / d) in
        let sticky := if t * t * d =? n then 0 else 1 in
        f64_round (inject_Z (2 * t + sticky) / inject_Z (2 ^ (k + 1)))
  end.

Module RQA.

(** ** [getContinuousRuns] *)

Inductive scan_state : Type := IN_ZEROS | IN_ONES.

(** The three variables the loop of [getContinuousRuns] updates. *)
Record scanner : Type := Scanner {
  Runs : gmap Z Z;
  state : scan_state;
  count : Z
}.

(** [if not count in Runs: Runs[count] = 0] followed by [Runs[count] += 1] *)
Definition record_run (c : Z) (runs : gmap Z Z) : gmap Z Z :=
  let runs' := if decide (is_Some (runs !! c)) then runs else <[c := 0]> runs in
  <[c := default 0 (runs' !! c) + 1]> runs'.

(** One iteration of the loop body on [x[i]]. *)
Definition scan_step (s : scanner) (xi : Z) : scanner :=
  match state s with
  | IN_ZEROS =>
      if xi =? 1 then Scanner (Runs s) IN_ONES 1 else s
  | IN_ONES =>
      if xi =? 0 then Scanner (record_run (count s) (Runs s)) IN_ZEROS (count s)
      else if xi =? 1 then Scanner (Runs s) IN_ONES (count s + 1)
      else s
  end.

Definition scan (s : scanner) (x : list Z) : scanner := foldl scan_step s x.

Definition scan_init : scanner := Scanner ∅ IN_ZEROS 0.

Definition getContinuousRuns (x : list Z) : gmap Z Z := Runs (scan scan_init x).

(** The count a distribution gives to a length (0 when the key is absent). *)
Definition cnt (m : gmap Z Z) (L : Z) : Z := default 0 (m !! L).

(** Merging two distributions by summing counts per length. *)
Definition mergeRuns (m1 m2 : gmap Z Z) : gmap Z Z :=
  union_with (λ a b, Some (a + b)) m1 m2.

Definition mergeAll (ms : list (gmap Z Z)) : gmap Z Z := foldr mergeRuns ∅ ms.

(** Length of the block of 1s at the front / at the end of a sequence. *)
Fixpoint leading_ones (x : list Z) : Z :=
  match x with
  | [] => 0
  | v :: t => if v =? 1 then 1 + leading_ones t else 0
  end.

Definition trailing_ones (x : list Z) : Z := leading_ones (reverse x).

(** ** [getRQAVerts] *)

(** [D[0:n, 0:n] = R] for an [R] of shape n×n. *)
Definition assign_block (n : nat) (D Rm : matrix Z) : matrix Z :=
  imap (λ i drow,
          if decide (i < n)%nat
          then imap (λ j d, if decide (j < n)%nat then entry Rm i j else d) drow
          else drow) D.

Definition padded (Rm : matrix Z) : matrix Z :=
  let N := shape0 Rm in
  assign_block N (zeros (N + 1) (N + 1)) Rm.

Definition getRQAVerts (Rm : matrix Z) : gmap Z Z :=
  getContinuousRuns (flatten (padded Rm)).

(** Column [j] of a matrix, and the list of its columns. *)
Definition column (D : matrix Z) (j : nat) : list Z :=
  map (λ row, default 0 (row !! j)) D.

Definition columns (D : matrix Z) : matrix Z :=
  map (column D) (seq 0 (shape1 D)).

(** The vertical extraction as the specification words it: run-length-encode
    every column of the zero-padded matrix on its own, then merge the
    distributions by summing counts per length. *)
Definition vertsPerColumn (Rm : matrix Z) : gmap Z Z :=
  mergeAll (map getContinuousRuns (columns (padded Rm))).

(** The same, over the rows of the zero-padded matrix. *)
Definition vertsPerRow (Rm : matrix Z) : gmap Z Z :=
  mergeAll (map getContinuousRuns (padded Rm)).

(** ** [getRQADiags] *)

(** [np.diagonal(R, i)] for an offset [i ≥ 0]: the entries [R[r, r + i]]. *)
Definition diagonal (Rm : matrix Z) (i : nat) : list Z :=
  map (λ r, entry Rm r (r + i)) (seq 0 (shape0 Rm `min` (shape1 Rm - i))).

(** The list [x] built by the loop over [range(1, R.shape[1])]. *)
Definition diagSequence (Rm : matrix Z) : list Z :=
  foldl (λ x i, x ++ (diagonal Rm i ++ [0])) [] (seq 1 (shape1 Rm - 1)).

Definition getRQADiags (Rm : matrix Z) : gmap Z Z :=
  getContinuousRuns (diagSequence Rm).

(** ** [getRQAStats] *)

Definition zeroDenom (x : Q) : Q := if Qeq_bool x 0 then 1%Q else x.

Definition arange (n : nat) : list Z := map Z.of_nat (seq 0 n).

(** [np.meshgrid(xs, ys)] with the default 'xy' indexing: both results have
    one row per element of [ys]; the first repeats [xs] in every row, the
    second fills row [r] with [ys[r]]. *)
Definition meshgrid (xs ys : list Z) : matrix Z * matrix Z :=
  (map (λ _, xs) ys, map (λ y, map (λ _, y) xs) ys).

(** The boolean array [I > J] *)
Definition gt_mask (I J : matrix Z) : matrix bool :=
  zip_with (zip_with (λ a b, bool_decide (b < a))) I J.

(** [R[mask]]: the entries under a true mask, in row-major order. *)
Definition mask_select (Rm : matrix Z) (mask : matrix bool) : list Z :=
  concat (zip_with (λ row mrow,
                      omap (λ vb : Z * bool, if vb.2 then Some vb.1 else None)
                           (zip row mrow)) Rm mask).

(** [[c for c in m if c >= lo]] with the count of [c] alongside: the items
    of the dictionary whose key is at least [lo], in iteration order. *)
Definition items_from (lo : Z) (m : gmap Z Z) : list (Z * Z) :=
  filter (λ cn, lo ≤ cn.1) (map_to_list m).

(** [np.sum(np.array([c*m[c] for c in m if c >= lo]))] *)
Definition sumLengths_from (lo : Z) (m : gmap Z Z) : Z :=
  sumZ (map (λ cn, cn.1 * cn.2) (items_from lo m)).

(** [np.sum(np.array([c*m[c] for c in m]))] *)
Definition sumLengths (m : gmap Z Z) : Z :=
  sumZ (map (λ cn, cn.1 * cn.2) (map_to_list m)).

(** [np.sum(np.array([m[c] for c in m if c >= lo]))] *)
Definition sumCounts_from (lo : Z) (m : gmap Z Z) : Z :=
  sumZ (map snd (items_from lo m)).

(** [np.sum(np.array([m[c] for c in m]))] *)
Definition sumCounts (m : gmap Z Z) : Z := sumZ (map snd (map_to_list m)).

(** [np.max] of a non-empty array *)
Definition np_max (l : list Z) : Z :=
  match l with
  | [] => 0
  | a :: t => foldl Z.max a t
  end.

(** [0] unless the dictionary has a key, then the largest key. *)
Definition longest (m : gmap Z Z) : Z :=
  if decide (0 < size m)%nat then np_max (map fst (map_to_list m)) else 0.

(** [-np.sum(ps*np.log(ps))] *)
Definition entropy (ps : list Q) : R :=
  (- sumR (map (λ p, Q2R p * ln (Q2R p)) ps))%R.

(** The dictionary [getRQAStats] returns.  [RR] is [None] when [R.size] is
    0, where numpy's division gives NaN. *)
Record RQAStats : Type := {
  RR : option Q;
  DET : Q;
  LAM : Q;
  RATIO : Q;
  L : Q;
  TT : Q;
  ENTR : R;
  Lmax : Z;
  Vmax : Z
}.

Definition getRQAStats (Rm : matrix Z) (dmin vmin : Z) : RQAStats :=
  let Verts := getRQAVerts Rm in
  let Diags := getRQADiags Rm in
  let N := shape0 Rm in
  let IJ := meshgrid (arange N) (arange N) in
  let I := IJ.1 in
  let J := IJ.2 in
  let SumDiags := inject_Z (sumLengths_from dmin Diags) in
  let SumVerts := inject_Z (sumLengths_from vmin Verts) in
  let nOnes := Z.of_nat (length (filter (λ v, v = 1) (flatten Rm))) in
  let RR :=
    if decide (size2 Rm = 0%nat) then None
    else Some (inject_Z nOnes / inject_Z (Z.of_nat (size2 Rm)))%Q in
  let DET :=
    (SumDiags / zeroDenom (inject_Z (sumZ (mask_select Rm (gt_mask I J)))))%Q in
  let denom := sumLengths Verts in
  let LAM := (SumVerts / zeroDenom (inject_Z denom))%Q in
  let denom := sumCounts Diags ^ 2 in
  let RATIO :=
    (inject_Z (Z.of_nat (size2 Rm)) * SumDiags / zeroDenom (inject_Z denom))%Q in
  let NDiags := zeroDenom (inject_Z (sumCounts_from dmin Diags)) in
  let L := (SumDiags / NDiags)%Q in
  let NVerts := zeroDenom (inject_Z (sumCounts_from vmin Verts)) in
  let TT := (SumVerts / NVerts)%Q in
  let ps := map (λ cn, inject_Z cn.2 / NDiags)%Q (items_from dmin Diags) in
  {| RR := RR; DET := DET; LAM := LAM; RATIO := RATIO; L := L; TT := TT;
     ENTR := entropy ps; Lmax := longest Diags; Vmax := longest Verts |}.

(** ** [CSMToBinary] *)

(** A Python number: [Kappa] is given as an int or as a (finite) float,
    [PyFloat q] being the float64 whose value is [q]. *)
Inductive pynum : Type :=
  | PyInt (z : Z)
  | PyFloat (q : Q).

Definition num_val (k : pynum) : Q :=
  match k with
  | PyInt z => inject_Z z
  | PyFloat q => q
  end.

(** [np.round]: to the nearest integer, halves to the even neighbour. *)
Definition np_round (q : Q) : Z :=
  let f := Qfloor q in
  match (q - inject_Z f ?= 1 # 2)%Q with
  | Lt => f
  | Gt => f + 1
  | Eq => if Z.even f then f else f + 1
  end.

(** The value bound to [NNeighbs] once [Kappa == 0] has been excluded.
    For a float [Kappa] below 1 the product [Kappa*M] is a float64 product:
    it is rounded before [np.round] sees it ([M], an array dimension, is
    exact as a float64), and [int] raises when it is infinite.  For an int
    [Kappa] the product is an exact int. *)
Definition NNeighbs (Kappa : pynum) (M : nat) : option pynum :=
  if Qlt_le_dec (num_val Kappa) 1 then
    match Kappa with
    | PyInt z => Some (PyInt (z * Z.of_nat M))
    | PyFloat q =>
        match mul64 (Fin q) (Fin (inject_Z (Z.of_nat M))) with
        | Fin v => Some (PyInt (np_round v))
        | _ => None
        end
    end
  else Some Kappa.

(** [A[i, j] += v] *)
Definition add_at (A : matrix Z) (i j : nat) (v : Z) : matrix Z :=
  alter (alter (Z.add v) j) i A.

(** [sparse.coo_matrix((V, (I, J)), shape=(N, M)).toarray()]: the three
    arrays must have one length and the indices must lie inside the shape;
    entries given twice are summed. *)
Definition coo_toarray (V : list Z) (I J : list nat) (N M : nat)
  : option (matrix Z) :=
  if decide (length I = length J ∧ length V = length I ∧
             Forall (λ i, i < N)%nat I ∧ Forall (λ j, j < M)%nat J)
  then Some (foldl (λ A e, add_at A e.2.1 e.2.2 e.1) (zeros N M)
                   (zip V (zip I J)))
  else None.

(** The value a row holds in column [j]. *)
Definition rowVal (row : list Q) (j : nat) : Q := default 0%Q (row !! j).

(** What numpy promises of one row [p] of [np.argpartition(D, k, 1)]: [p]
    lists every column index once, the values at the positions before [k]
    are at most the value at position [k], and those after it are at
    least that value. *)
Definition is_argpartition (row : list Q) (k : nat) (p : list nat) : bool :=
  let pivot := rowVal row (default 0%nat (p !! k)) in
  bool_decide (p ≡ₚ seq 0 (length row))
  && forallb (λ j, Qle_bool (rowVal row j) pivot) (take k p)
  && forallb (λ j, Qle_bool pivot (rowVal row j)) (drop (S k) p).

Section KNN.

(** [argpartition row k] is the row of [np.argpartition(D, k, 1)] for the
    row [row] of [D]; which of the admissible orders numpy returns is not
    fixed by its contract. *)
Variable argpartition : list Q → nat → list nat.

(** The call raises ([None]) when line 19 does, when [NNeighbs] is a float
    (not an index), when it is negative ([np.tile] takes no negative
    repetition count), and when it is not below [M] on a non-empty array
    ([np.argpartition]: kth out of bounds). *)
Definition CSMToBinary (D : matrix Q) (Kappa : pynum) : option (matrix Z) :=
  let N := shape0 D in
  let M := shape1 D in
  if Qeq_bool (num_val Kappa) 0 then Some (ones N M)
  else
    match NNeighbs Kappa M with
    | None | Some (PyFloat _) => None
    | Some (PyInt k) =>
        if (k <? 0) || (negb (size2 D =? 0)%nat && (Z.of_nat M <=? k))
        then None
        else
          let k := Z.to_nat k in
          let J := map (λ row, take k (argpartition row k)) D in
          let I := map (λ i, replicate k i) (seq 0 N) in
          let V := replicate (size2 I) 1 in
          coo_toarray V (flatten I) (flatten J) N M
    end.

(** [B1*B2] is the elementwise product; an exception of either call
    propagates. *)
Definition CSMToBinaryMutual (D : matrix Q) (Kappa : pynum)
  : option (matrix Z) :=
  B1 ← CSMToBinary D Kappa;
  B2 ← transpose <$> CSMToBinary (transpose D) Kappa;
  Some (zip_with (zip_with Z.mul) B1 B2).

End KNN.

(** ** [CSM2CRPEps] *)

Section Threshold.

(** [leb v eps] is the comparison [v <= eps] on the entries of the array. *)
Context {A : Type} (leb : A → A → bool).

(** [CRP = np.zeros(CSM.shape)] followed by [CRP[CSM <= eps] = 1] *)
Definition CSM2CRPEps (CSM : matrix A) (eps : A) : matrix Z :=
  map (map (λ v, if leb v eps then 1 else 0)) CSM.

End Threshold.

End RQA.

Module GeometricScoring.

Local Open Scope R_scope.

(** ** [getCSM] *)

(** [np.sum(X**2, 1)[i]] for the row [x] of [X] *)
Definition sqnorm (x : list R) : R := sumR (map (λ v, v ^ 2) x).

(** [X.dot(Y.T)[i, j]] for the rows [x] of [X] and [y] of [Y]; numpy raises
    when the two have different lengths. *)
Definition dot (x y : list R) : R := sumR (zip_with Rmult x y).

(** [C[C < 0] = 0] on one entry *)
Definition clamp (c : R) : R := if Rlt_dec c 0 then 0 else c.

(** [getCSM] over the real numbers: the matrix that the float64 result
    [getCSM_float64] below approximates. *)
Definition getCSM (X Y : matrix R) : matrix R :=
  let C := map (λ x, map (λ y, sqnorm x + sqnorm y - 2 * dot x y) Y) X in
  let C := map (map clamp) C in
  map (map sqrt) C.

(** [getCSM] on float64 arrays, operation by operation. *)

Section Float64.

(** [np.sum(A, 1)[i]] for the row [a] of [A]: numpy's summation routine,
    which fixes the order of the additions. *)
Variable sum64 : list f64 → f64.

(** [X.dot(Y.T)[i, j]] for the rows [x] of [X] and [y] of [Y]: the matrix
    product of the BLAS library numpy is built on, which fixes the order of
    the additions and whether a product is rounded before it is added. *)
Variable dot64 : list f64 → list f64 → f64.

(** [np.sum(X**2, 1)[i]] *)
Definition sqnorm64 (x : list f64) : f64 := sum64 (map (λ v, mul64 v v) x).

(** One entry of [C] after line 45 *)
Definition expansion64 (x y : list f64) : f64 :=
  sub64 (add64 (sqnorm64 x) (sqnorm64 y)) (mul64 (Fin 2%Q) (dot64 x y)).

(** [C[C < 0] = 0] on one entry *)
Definition clamp64 (c : f64) : f64 := if lt64 c (Fin 0%Q) then Fin 0%Q else c.

Definition getCSM_float64 (X Y : matrix f64) : matrix f64 :=
  let C := map (λ x, map (λ y, expansion64 x y) Y) X in
  let C := map (map clamp64) C in
  map (map sqrt64) C.

End Float64.

(** ** [getSlidingWindow] and [getPersistencesBlock] *)

(** [np.mean] of a row *)
Definition mean (x : list R) : R := sumR x / INR (length x).

(** [np.max] of a non-empty array *)
Definition np_maxR (l : list R) : R :=
  match l with
  | [] => 0
  | a :: t => foldl Rmax a t
  end.

(** The dictionary [getPersistencesBlock] returns: the self-similarity
    matrix ['D'], the score ['P'] and the birth/death pairs ['I'] (an array
    with one row [[birth, death]] per feature). *)
Record PersBlock : Type := {
  res_D : matrix R;
  res_P : R;
  res_I : list (R * R)
}.

Section Collaborators.

(** The routines imported from [SlidingWindowVideoTDA] and [sklearn]. *)

(** [getTimeDerivative(X, derivWin)[0]] *)
Variable getTimeDerivative : matrix R → Z → matrix R.
(** [PCA(n_components = 1).fit_transform(X)] *)
Variable pca_fit_transform : matrix R → matrix R.
Variable estimateFundamentalFreq : list R → bool → R * R.
Variable getSlidingWindowVideo : matrix R → Z → R → R → matrix R.

(** [doRipsFiltrationDM(D, maxHomDim, coeff)] either raises or returns the
    persistence diagrams, one per homology degree. *)
Variable exn : Type.
Variable doRipsFiltrationDM : matrix R → Z → Z → exn + list (list (R * R)).

(** Division by zero (a row of zero norm, [dim = 0] with [estimateFreq])
    follows the convention of [Rdiv]; the source gives NaN or inf there. *)
Definition getSlidingWindow (XP : matrix R) (dim : Z) (estimateFreq : bool)
    (derivWin : Z) : matrix R :=
  let X := XP in
  let X := if (-1 <? derivWin)%Z then getTimeDerivative X derivWin else X in
  let Tau := 1 in
  let dT := 1 in
  let Tau :=
    if estimateFreq then
      let xpca := pca_fit_transform X in
      let maxT := (estimateFundamentalFreq (flatten xpca) false).1 in
      maxT / IZR dim
    else Tau in
  if (Z.of_nat (shape0 X) <=? dim)%Z then [[0; 0]]
  else
    let XS := getSlidingWindowVideo X dim Tau dT in
    let XS := map (λ row, map (λ v, v - mean row) row) XS in
    map (λ row, map (λ v, v / sqrt (sqnorm row)) row) XS.

(** The result and the lines printed. *)
Definition getPersistencesBlock (XP : matrix R) (dim : Z)
    (estimateFreq : bool) (derivWin : Z) : PersBlock * list string :=
  let XS := getSlidingWindow XP dim estimateFreq derivWin in
  let D := getCSM XS XS in
  let Pers := 0 in
  let I := [(0, 0)] in
  match doRipsFiltrationDM D 1 41 with
  | inl _ => ({| res_D := D; res_P := Pers; res_I := I |}, ["EXCEPTION"%string])
  | inr PDs2 =>
      match PDs2 !! 1%nat with
      | None => ({| res_D := D; res_P := Pers; res_I := I |}, ["EXCEPTION"%string])
      | Some I1 =>
          let Pers :=
            if decide (0 < length I1)%nat
            then np_maxR (map (λ bd, bd.2 - bd.1) I1)
            else Pers in
          ({| res_D := D; res_P := Pers; res_I := I1 |}, [])
      end
  end.

End Collaborators.

End GeometricScoring.

Import RQA GeometricScoring.

(** ** Notions used to state the properties *)

(** The hand-built sequence of the run-length test. *)
Definition handBuilt : list Z := [0; 1; 1; 0; 1; 0; 0; 1; 1; 1].

(** Lengths and counts held by a distribution are positive. *)
Definition runs_pos (m : gmap Z Z) : Prop :=
  map_Forall (λ c n, 0 < c ∧ 0 < n) m.

Definition scanner_ok (s : scanner) : Prop :=
  runs_pos (Runs s) ∧ (state s = IN_ONES → 0 < count s).

Definition all_zero (x : list Z) : Prop := Forall (λ v, v = 0) x.

(** [np.sum(R[I > J])] as [getRQAStats] forms it. *)
Definition upperOnes (Rm : matrix Z) : Z :=
  let IJ := meshgrid (arange (shape0 Rm)) (arange (shape0 Rm)) in
  sumZ (mask_select Rm (gt_mask IJ.1 IJ.2)).

(** The sum of the entries [e r c] with [r < c < N], row by row. *)
Definition upperSum (e : nat → nat → Z) (N : nat) : Z :=
  sumZ (map (λ r, sumZ (omap (λ c, if bool_decide (Z.of_nat r < Z.of_nat c)
                                   then Some (e r c) else None) (seq 0 N)))
            (seq 0 N)).

(** The same entries, diagonal by diagonal. *)
Definition diagSum (e : nat → nat → Z) (N : nat) : Z :=
  sumZ (map (λ i, sumZ (map (λ r, e r (r + i)%nat) (seq 0 (N - i))))
            (seq 1 (N - 1))).

(** The row that [toarray] produces from the column indices [js] of its
    entries: one is added at each of them, starting from a row of zeros. *)
Definition rowOnes (M : nat) (js : list nat) : list Z :=
  foldl (λ r j, alter (Z.add 1) j r) (replicate M 0) js.

(** A routine that meets the contract of [np.argpartition]: a full sort of
    the column indices by value. *)
Fixpoint insert_by (row : list Q) (j : nat) (l : list nat) : list nat :=
  match l with
  | [] => [j]
  | h :: t => if Qle_bool (rowVal row j) (rowVal row h) then j :: l
              else h :: insert_by row j t
  end.

Definition argsort (row : list Q) (k : nat) : list nat :=
  foldr (insert_by row) [] (seq 0 (length row)).

(** The entry of [getCSM X Y] for a row [x] of [X] and a row [y] of [Y]. *)
Definition csmEntry (x y : list R) : R :=
  sqrt (Rmax 0 (sqnorm x + sqnorm y - 2 * dot x y))%R.

(** The array with entry [f i j] in row [i], column [j]. *)
Definition table {A} (f : nat → nat → A) (N M : nat) : matrix A :=
  map (λ i, map (f i) (seq 0 M)) (seq 0 N).

(** [D[i, j]] when it exists. *)
Definition entry_of {A} (D : matrix A) (i j : nat) : option A :=
  D !! i ≫= λ row, row !! j.

(** The two normalisation steps of [getSlidingWindow] on one row. *)
Definition centre (row : list R) : list R :=
  map (λ v, v - mean row)%R row.
Definition normalise (row : list R) : list R :=
  map (λ v, v / sqrt (sqnorm row))%R row.

(** A float64 that is neither negative nor NaN. *)
Definition nonneg64 (a : f64) : Prop :=
  match a with
  | Fin q => (0 <= q)%Q
  | Inf s => s = false
  | NaN => False
  end.

(** A fused multiply-add: [a*b + c] with one rounding. *)
Definition fma64 (a b c : f64) : f64 :=
  match a, b, c with
  | Fin x, Fin y, Fin z => f64_round (x * y + z)
  | _, _, _ => add64 (mul64 a b) c
  end.

(** Summation and dot products that a library may use: left to right,
    rounding every product and every sum ([sum_seq], [dot_plain]), or
    accumulating with fused multiply-adds ([dot_fma]). *)
Definition sum_seq (l : list f64) : f64 := foldl add64 (Fin 0) l.
Definition dot_plain (x y : list f64) : f64 :=
  foldl (λ acc ab, add64 acc (mul64 ab.1 ab.2)) (Fin 0) (zip x y).
Definition dot_fma (x y : list f64) : f64 :=
  foldl (λ acc ab, fma64 ab.1 ab.2 acc) (Fin 0) (zip x y).

(** The float64 that the decimal literal [q] denotes. *)
Definition lit (q : Q) : f64 := f64_round q.

(** The value of the float64 literal [q] (0 when it is infinite). *)
Definition lit_val (q : Q) : Q :=
  match lit q with
  | Fin v => v
  | _ => 0%Q
  end.

(** The three points (0.6, 0.8), (0.5, 1.0), (0.1, 0.4), the point
    (0.4, 0.7) and the point (1e200), as float64 arrays. *)
Definition threePoints : matrix f64 :=
  map (map lit) [[6 # 10; 8 # 10]; [5 # 10; 1]; [1 # 10; 4 # 10]]%Q.
Definition onePoint : matrix f64 := map (map lit) [[4 # 10; 7 # 10]]%Q.
Definition farPoint : matrix f64 := [[lit (inject_Z (10 ^ 200))]].

(** The distances between the points 0, 1, 2, 3, 4 of a line. *)
Definition fiveOnALine : matrix Q :=
  [[0; 1; 2; 3; 4]; [1; 0; 1; 2; 3]; [2; 1; 0; 1; 2]; [3; 2; 1; 0; 1];
   [4; 3; 2; 1; 0]]%Q.

(** * Properties *)

Section ScannerFacts.

Implicit Types (m a b : gmap Z Z) (s : scanner) (x y : list Z) (c k L : Z).

Lemma lookup_record_run c m k :
  record_run c m !! k = if decide (c = k) then Some (cnt m c + 1) else m !! k.
Proof.
  unfold record_run, cnt.
  destruct (decide (is_Some (m !! c))) as [[v Hv]|Hn].
  - rewrite Hv, lookup_insert. reflexivity.
  - apply eq_None_not_Some in Hn.
    rewrite lookup_insert_eq, !lookup_insert, Hn. simpl.
    case_decide; reflexivity.
Qed.

Lemma lookup_mergeRuns a b k :
  mergeRuns a b !! k = union_with (λ u v, Some (u + v)) (a !! k) (b !! k).
Proof. apply lookup_union_with. Qed.

Lemma mergeRuns_empty_l m : mergeRuns ∅ m = m.
Proof.
  apply map_eq; intros k. rewrite lookup_mergeRuns, lookup_empty.
  by destruct (m !! k).
Qed.

Lemma mergeRuns_empty_r m : mergeRuns m ∅ = m.
Proof.
  apply map_eq; intros k. rewrite lookup_mergeRuns, lookup_empty.
  by destruct (m !! k).
Qed.

Lemma cnt_mergeRuns a b L : cnt (mergeRuns a b) L = cnt a L + cnt b L.
Proof.
  unfold cnt. rewrite lookup_mergeRuns.
  destruct (a !! L), (b !! L); simpl; lia.
Qed.

Lemma cnt_record_run c m L :
  cnt (record_run c m) L = cnt m L + (if decide (c = L) then 1 else 0).
Proof.
  unfold cnt at 1. rewrite lookup_record_run.
  case_decide; subst; simpl; unfold cnt; lia.
Qed.

Lemma record_run_mergeRuns c a b :
  record_run c (mergeRuns a b) = mergeRuns a (record_run c b).
Proof.
  apply map_eq; intros k.
  rewrite lookup_mergeRuns, !lookup_record_run, lookup_mergeRuns.
  case_decide; [|done]. subst k.
  rewrite cnt_mergeRuns. unfold cnt.
  destruct (a !! c); simpl; f_equal; lia.
Qed.

Lemma mergeRuns_assoc a b m :
  mergeRuns (mergeRuns a b) m = mergeRuns a (mergeRuns b m).
Proof.
  apply map_eq; intros k. rewrite !lookup_mergeRuns.
  destruct (a !! k), (b !! k), (m !! k); simpl; f_equal; lia.
Qed.

Lemma scan_app s x y : scan s (x ++ y) = scan (scan s x) y.
Proof. apply foldl_app. Qed.

(** Scanning adds to the distribution it starts from. *)
Lemma scan_mergeRuns x : ∀ s,
  scan s x =
  let t := scan (Scanner ∅ (state s) (count s)) x in
  Scanner (mergeRuns (Runs s) (Runs t)) (state t) (count t).
Proof.
  induction x as [|v x IH]; intros [r st c]; simpl.
  - by rewrite mergeRuns_empty_r.
  - rewrite IH. rewrite (IH (scan_step (Scanner ∅ st c) v)).
    unfold scan_step; simpl.
    destruct st; repeat case_match; simpl;
      rewrite ?mergeRuns_empty_l, ?mergeRuns_empty_r; try reflexivity.
    rewrite <- (mergeRuns_empty_r r) at 1.
    rewrite record_run_mergeRuns, mergeRuns_assoc. reflexivity.
Qed.

Lemma scan_snoc s x v : scan s (x ++ [v]) = scan_step (scan s x) v.
Proof. apply foldl_snoc. Qed.

Lemma scan_step_zero_state s : state (scan_step s 0) = IN_ZEROS.
Proof. unfold scan_step. by destruct (state s) eqn:E. Qed.

(** In state [IN_ZEROS] the stale value of [count] is never read again. *)
Lemma scan_zeros_count x : ∀ r c,
  Runs (scan (Scanner r IN_ZEROS c) x) = Runs (scan (Scanner r IN_ZEROS 0) x).
Proof.
  induction x as [|v x IH]; intros r c; [done|].
  simpl. unfold scan_step; simpl. case_match; [done|apply IH].
Qed.

(** A 0 separates what comes before it from what comes after. *)
Lemma getContinuousRuns_split x y :
  getContinuousRuns (x ++ 0 :: y) =
  mergeRuns (getContinuousRuns (x ++ [0])) (getContinuousRuns y).
Proof.
  unfold getContinuousRuns.
  replace (x ++ 0 :: y) with ((x ++ [0]) ++ y) by (by rewrite <- app_assoc).
  rewrite (scan_app _ (x ++ [0]) y), scan_mergeRuns. simpl.
  f_equal.
  assert (Hst : state (scan scan_init (x ++ [0])) = IN_ZEROS).
  { rewrite scan_snoc. apply scan_step_zero_state. }
  rewrite Hst. apply scan_zeros_count.
Qed.

Lemma getContinuousRuns_zeros n : getContinuousRuns (replicate n 0) = ∅.
Proof.
  unfold getContinuousRuns.
  assert (H : scan scan_init (replicate n 0) = scan_init); [|by rewrite H].
  induction n as [|n IH]; [done|]. simpl. exact IH.
Qed.

(** Rows that each end in 0 are scanned independently of one another. *)
Lemma getContinuousRuns_concat (rows : list (list Z)) :
  getContinuousRuns (concat (map (λ row, row ++ [0]) rows)) =
  mergeAll (map (λ row, getContinuousRuns (row ++ [0])) rows).
Proof.
  induction rows as [|row rows IH]; [done|].
  simpl. rewrite <- app_assoc. simpl.
  rewrite getContinuousRuns_split, IH. reflexivity.
Qed.


Lemma trailing_ones_snoc x v :
  trailing_ones (x ++ [v]) = if v =? 1 then 1 + trailing_ones x else 0.
Proof. unfold trailing_ones. by rewrite reverse_snoc. Qed.

(** What the scanner knows after a binary prefix: it is inside a run exactly
    when the prefix ends in 1, and then [count] is the length of that run. *)
Lemma scan_state_binary x :
  binary x →
  let s := scan scan_init x in
  (state s = IN_ONES ∧ last x = Some 1 ∧ count s = trailing_ones x) ∨
  (state s = IN_ZEROS ∧ last x ≠ Some 1 ∧ trailing_ones x = 0).
Proof.
  induction x as [|v x IH] using rev_ind; intros Hb; cbv zeta.
  - right. by repeat split.
  - apply Forall_app in Hb as [Hx Hv]. apply Forall_inv in Hv.
    cbv beta in Hv. specialize (IH Hx). cbv zeta in IH.
    rewrite scan_snoc, last_snoc, trailing_ones_snoc.
    unfold scan_step.
    destruct IH as [(Hs & _ & Hc)|(Hs & _ & Ht)], Hv as [-> | ->];
      rewrite Hs; simpl.
    + right. by repeat split.
    + left. repeat split. lia.
    + right. by repeat split.
    + left. repeat split. lia.
Qed.

End ScannerFacts.

(** C5.  On a binary sequence [getContinuousRuns] records a run of 1s only
    when a 0 follows it: appending a 1 never changes the distribution,
    appending a 0 after a 1 increments the count of the length of the run
    that just ended (and changes nothing after a 0 or at the start), so a
    run still open at the end of the sequence is not in the result. *)
Theorem getContinuousRuns_records_closed_runs (x : list Z) :
  binary x →
  getContinuousRuns (x ++ [1]) = getContinuousRuns x ∧
  getContinuousRuns (x ++ [0]) =
    (if decide (last x = Some 1)
     then record_run (trailing_ones x) (getContinuousRuns x)
     else getContinuousRuns x) ∧
  (∀ L, cnt (getContinuousRuns (x ++ [0])) L =
        cnt (getContinuousRuns x) L +
        (if decide (last x = Some 1 ∧ trailing_ones x = L) then 1 else 0)) ∧
  (∀ k, getContinuousRuns (x ++ replicate k 1) = getContinuousRuns x).
Proof.
  intros Hb.
  assert (H1 : ∀ y, getContinuousRuns (y ++ [1]) = getContinuousRuns y).
  { intros y. unfold getContinuousRuns. rewrite scan_snoc.
    unfold scan_step. by destruct (state (scan scan_init y)). }
  assert (H0 : getContinuousRuns (x ++ [0]) =
    (if decide (last x = Some 1)
     then record_run (trailing_ones x) (getContinuousRuns x)
     else getContinuousRuns x)).
  { unfold getContinuousRuns. rewrite scan_snoc. unfold scan_step.
    destruct (scan_state_binary x Hb) as [(Hs & Hl & Hc)|(Hs & Hl & _)];
      rewrite Hs; simpl.
    - rewrite decide_True by done. by rewrite Hc.
    - by rewrite decide_False. }
  split; [apply H1|]. split; [exact H0|]. split.
  - intros L. rewrite H0.
    destruct (decide (last x = Some 1)) as [Hl|Hl].
    + rewrite cnt_record_run. f_equal.
      destruct (decide (trailing_ones x = L));
        [rewrite decide_True by done | rewrite decide_False by tauto];
        done.
    + rewrite decide_False by tauto. lia.
  - intros k. clear H0. revert x Hb.
    induction k as [|k IH]; intros x Hb; simpl.
    + by rewrite app_nil_r.
    + replace (x ++ 1 :: replicate k 1) with ((x ++ [1]) ++ replicate k 1)
        by (by rewrite <- app_assoc).
      rewrite IH; [apply H1|].
      apply Forall_app. split; [done|]. constructor; [by right|constructor].
Qed.

Lemma getContinuousRuns_records_closed_runs_witness :
  binary [1; 1; 0; 1] ∧
  getContinuousRuns ([1; 1; 0; 1] ++ [0]) =
    record_run 1 (getContinuousRuns [1; 1; 0; 1]).
Proof.
  assert (Hb : binary [1; 1; 0; 1]) by (repeat constructor; lia).
  split; [exact Hb|].
  exact (proj1 (proj2 (getContinuousRuns_records_closed_runs [1; 1; 0; 1] Hb))).
Defined.

(** C1, as the code behaves.  For [0,1,1,0,1,0,0,1,1,1] the result is
    {2:1, 1:1}: the final run of three 1s is still open at the end and is
    not recorded; with a terminating 0 appended the result is
    {2:1, 1:1, 3:1}. *)
Theorem getContinuousRuns_handBuilt :
  getContinuousRuns handBuilt = {[2 := 1; 1 := 1]} ∧
  getContinuousRuns (handBuilt ++ [0]) = {[2 := 1; 1 := 1; 3 := 1]}.
Proof. split; vm_compute; reflexivity. Qed.

(** The distribution {2:1, 1:1, 3:1} is not what the hand-built sequence
    yields. *)
Lemma getContinuousRuns_handBuilt_drops_open_run :
  getContinuousRuns handBuilt ≠ {[2 := 1; 1 := 1; 3 := 1]}.
Proof.
  intros H. apply (f_equal (λ m : gmap Z Z, m !! 3)) in H.
  vm_compute in H. discriminate H.
Qed.


Section VertsFacts.

Lemma is_matrix_lookup {A} N M (D : matrix A) i row :
  is_matrix N M D → D !! i = Some row → length row = M.
Proof.
  intros [_ HF] Hi. rewrite Forall_forall in HF. apply HF.
  eapply list_elem_of_lookup_2. exact Hi.
Qed.

(** The block assignment leaves a last column and a last row of zeros. *)
Lemma padded_rows N (Rm : matrix Z) :
  is_matrix N N Rm →
  padded Rm = map (λ row, row ++ [0]) (Rm ++ [replicate N 0]).
Proof.
  intros HM. pose proof HM as [HN _].
  unfold padded, assign_block, zeros, shape0. rewrite HN.
  apply list_eq; intros i.
  rewrite list_lookup_imap, list_lookup_fmap.
  destruct (decide (i < N)%nat) as [Hi|Hi].
  - rewrite lookup_replicate_2 by lia. simpl.
    destruct (lookup_lt_is_Some_2 Rm i) as [row Hrow]; [lia|].
    rewrite lookup_app_l, Hrow by lia. simpl. f_equal.
    pose proof (is_matrix_lookup _ _ _ _ _ HM Hrow) as Hlen.
    apply list_eq; intros j. rewrite list_lookup_imap.
    destruct (decide (j < N)%nat) as [Hj|Hj].
    + rewrite lookup_replicate_2 by lia. simpl.
      rewrite lookup_app_l by lia.
      destruct (lookup_lt_is_Some_2 row j) as [v Hv]; [lia|].
      unfold entry. rewrite Hrow. simpl. by rewrite Hv.
    + destruct (decide (j = N)) as [->|Hne].
      * rewrite lookup_replicate_2 by lia. simpl.
        rewrite lookup_app_r by lia. by rewrite Hlen, Nat.sub_diag.
      * rewrite (proj1 (lookup_replicate_None _ _ _)) by lia. simpl.
        symmetry. apply lookup_ge_None_2. rewrite length_app. simpl. lia.
  - destruct (decide (i = N)) as [->|Hne].
    + rewrite lookup_replicate_2 by lia. simpl.
      rewrite lookup_app_r by lia. rewrite HN, Nat.sub_diag. simpl.
      f_equal. rewrite <- replicate_cons_app.
      by replace (N + 1)%nat with (S N) by lia.
    + rewrite (proj1 (lookup_replicate_None _ _ _)) by lia. simpl.
      rewrite lookup_ge_None_2; [done|]. rewrite length_app. simpl. lia.
Qed.

(** [getRQAVerts] scans the rows of the padded matrix one by one. *)
Lemma getRQAVerts_per_row N (Rm : matrix Z) :
  is_matrix N N Rm → getRQAVerts Rm = vertsPerRow Rm.
Proof.
  intros HM. unfold getRQAVerts, vertsPerRow, flatten.
  rewrite (padded_rows N Rm HM), getContinuousRuns_concat.
  by rewrite map_map.
Qed.

End VertsFacts.

(** C2, at the 2×2 binary matrix [[1,1],[0,0]].  [getRQAVerts] flattens
    the padded matrix row by row, so it finds the horizontal run of length
    2 ({2:1}); the columns of the padded matrix hold two runs of length 1
    ({1:2}). *)
Theorem getRQAVerts_scans_rows_not_columns :
  is_matrix 2 2 [[1; 1]; [0; 0]] ∧ binary_matrix [[1; 1]; [0; 0]] ∧
  getRQAVerts [[1; 1]; [0; 0]] = {[2 := 1]} ∧
  vertsPerColumn [[1; 1]; [0; 0]] = {[1 := 2]} ∧
  vertsPerRow [[1; 1]; [0; 0]] = {[2 := 1]}.
Proof.
  split; [by repeat constructor|].
  split; [repeat constructor; lia|].
  repeat split; vm_compute; reflexivity.
Qed.

Section SumFacts.

Implicit Types (m : gmap Z Z) (l : list Z).

Lemma sumZ_app l1 l2 : sumZ (l1 ++ l2) = sumZ l1 + sumZ l2.
Proof. induction l1 as [|a l1 IH]; simpl; lia. Qed.

Lemma sumZ_concat (ls : list (list Z)) : sumZ (concat ls) = sumZ (map sumZ ls).
Proof. induction ls as [|a ls IH]; simpl; [done|]. rewrite sumZ_app. lia. Qed.

Lemma sumZ_perm l1 l2 : l1 ≡ₚ l2 → sumZ l1 = sumZ l2.
Proof. induction 1; simpl; lia. Qed.

Lemma sumZ_filter_le {A} (f : A → Z) (P : A → Prop) `{∀ a, Decision (P a)}
    (l : list A) :
  Forall (λ a, 0 ≤ f a) l →
  0 ≤ sumZ (map f (filter P l)) ≤ sumZ (map f l).
Proof.
  induction 1 as [|a l Ha _ IH]; simpl; [lia|].
  rewrite filter_cons. destruct (decide (P a)); simpl; lia.
Qed.

(** Summing a function of the items is insensitive to the iteration order
    of the dictionary, so one more key adds one more term. *)
Lemma sum_items_insert (f : Z * Z → Z) m c v :
  m !! c = None →
  sumZ (map f (map_to_list (<[c := v]> m))) =
  f (c, v) + sumZ (map f (map_to_list m)).
Proof.
  intros Hc. rewrite (sumZ_perm _ (map f ((c, v) :: map_to_list m))); [done|].
  apply fmap_Permutation. by apply map_to_list_insert.
Qed.

Lemma record_run_insert c m :
  record_run c m = <[c := cnt m c + 1]> (delete c m).
Proof.
  apply map_eq; intros k. rewrite lookup_record_run, lookup_insert.
  case_decide; [done|]. by rewrite lookup_delete_ne.
Qed.

Lemma sumLengths_record_run c m :
  sumLengths (record_run c m) = sumLengths m + c.
Proof.
  unfold sumLengths. rewrite record_run_insert.
  rewrite sum_items_insert by apply lookup_delete_eq. simpl.
  unfold cnt. destruct (m !! c) as [n|] eqn:E; simpl.
  - rewrite <- (insert_delete_id m c n E) at 2.
    rewrite sum_items_insert by apply lookup_delete_eq. simpl. lia.
  - rewrite delete_id by done. lia.
Qed.

End SumFacts.

Section RunInvariants.

Implicit Types (m : gmap Z Z) (s : scanner) (x : list Z).

Lemma runs_pos_record_run c m : 0 < c → runs_pos m → runs_pos (record_run c m).
Proof.
  intros Hc Hm k n. rewrite lookup_record_run.
  case_decide as Hk.
  - intros [= <-]. subst k. split; [done|].
    unfold cnt. destruct (m !! c) as [v|] eqn:E; simpl; [|lia].
    apply Hm in E. lia.
  - apply Hm.
Qed.

Lemma scanner_ok_step s v : scanner_ok s → scanner_ok (scan_step s v).
Proof.
  intros [Hr Hc]. unfold scanner_ok, scan_step.
  destruct (state s) eqn:Hs.
  - case_match; simpl; [split; [done|lia]|].
    rewrite Hs. by split.
  - specialize (Hc eq_refl).
    repeat case_match; simpl; rewrite ?Hs; split; try done; try lia.
    by apply runs_pos_record_run.
Qed.

Lemma scanner_ok_scan x : ∀ s, scanner_ok s → scanner_ok (scan s x).
Proof.
  induction x as [|v x IH]; intros s Hs; [done|].
  apply IH, scanner_ok_step, Hs.
Qed.

Lemma scanner_ok_init : scanner_ok scan_init.
Proof. split; [apply map_Forall_empty|done]. Qed.

Lemma getContinuousRuns_pos x : runs_pos (getContinuousRuns x).
Proof. apply (scanner_ok_scan x scan_init scanner_ok_init). Qed.

(** Every 1 read so far lies in a recorded run or in the run still open. *)
Lemma scan_counts_ones x :
  binary x →
  let s := scan scan_init x in
  sumLengths (Runs s) + (if state s is IN_ONES then count s else 0) = sumZ x.
Proof.
  induction x as [|v x IH] using rev_ind; intros Hb; cbv zeta.
  - done.
  - apply Forall_app in Hb as [Hx Hv]. apply Forall_inv in Hv.
    cbv beta in Hv. specialize (IH Hx). cbv zeta in IH.
    rewrite scan_snoc, sumZ_app. simpl. unfold scan_step.
    destruct (state (scan scan_init x)) eqn:Hs, Hv as [-> | ->]; simpl;
      rewrite ?Hs, ?sumLengths_record_run; lia.
Qed.

Lemma sumLengths_le_ones x :
  binary x → sumLengths (getContinuousRuns x) ≤ sumZ x.
Proof.
  intros Hb. pose proof (scan_counts_ones x Hb) as H. cbv zeta in H.
  pose proof (scanner_ok_scan x scan_init scanner_ok_init) as [_ Hc].
  unfold getContinuousRuns.
  destruct (state (scan scan_init x)); [lia|]. specialize (Hc eq_refl). lia.
Qed.

(** The part of a distribution from a minimum length on weighs at most as
    much as the whole, and nothing less than 0. *)
Lemma sumLengths_from_bounds lo m :
  runs_pos m → 0 ≤ sumLengths_from lo m ≤ sumLengths m.
Proof.
  intros Hm. unfold sumLengths_from, sumLengths, items_from.
  apply (sumZ_filter_le (λ cn : Z * Z, cn.1 * cn.2)).
  apply Forall_forall. intros [c n] Hin. apply elem_of_map_to_list in Hin.
  apply Hm in Hin. simpl. nia.
Qed.

End RunInvariants.

Section TriangleSums.

Lemma sumZ_map_ext_in {A} (f g : A → Z) (l : list A) :
  (∀ a, a ∈ l → f a = g a) → sumZ (map f l) = sumZ (map g l).
Proof.
  induction l as [|a l IH]; intros H; simpl; [done|].
  rewrite (H a), IH; [done| |left]. intros b Hb. apply H. by right.
Qed.

Lemma sumZ_map_add {A} (f g : A → Z) (l : list A) :
  sumZ (map (λ a, f a + g a) l) = sumZ (map f l) + sumZ (map g l).
Proof. induction l as [|a l IH]; simpl; lia. Qed.

Lemma omap_all_None {A B} (f : A → option B) (l : list A) :
  (∀ a, a ∈ l → f a = None) → omap f l = [].
Proof.
  induction l as [|a l IH]; intros H; simpl; [done|].
  rewrite (H a) by left. apply IH. intros b Hb. apply H. by right.
Qed.

Lemma zip_with_fmap_same {A B C D} (F : B → C → D) (a : A → B) (b : A → C)
    (l : list A) :
  zip_with F (a <$> l) (b <$> l) = (λ y, F (a y) (b y)) <$> l.
Proof. induction l as [|y l IH]; csimpl; [done|]. by rewrite IH. Qed.

Lemma omap_fmap {A B C} (f : A → B) (g : B → option C) (l : list A) :
  omap g (f <$> l) = omap (g ∘ f) l.
Proof. induction l as [|y l IH]; csimpl; [done|]. by rewrite IH. Qed.

Variable e : nat → nat → Z.

Lemma upperSum_S N :
  upperSum e (S N) = upperSum e N + sumZ (map (λ r, e r N) (seq 0 N)).
Proof.
  unfold upperSum. rewrite seq_S, map_app, sumZ_app. simpl.
  rewrite (omap_all_None _ (seq 0 N ++ [N])).
  2:{ intros c Hc. rewrite bool_decide_eq_false_2; [done|].
      apply elem_of_app in Hc as [Hc|Hc].
      - apply elem_of_seq in Hc. lia.
      - apply list_elem_of_singleton in Hc. lia. }
  simpl. rewrite <- sumZ_map_add, !Z.add_0_r.
  apply sumZ_map_ext_in. intros r Hr. apply elem_of_seq in Hr.
  rewrite omap_app, sumZ_app. simpl.
  rewrite bool_decide_eq_true_2 by lia. simpl. lia.
Qed.

Lemma sum_reversed (h : nat → Z) N :
  sumZ (map (λ i, h (N - i)%nat) (seq 1 N)) = sumZ (map h (seq 0 N)).
Proof.
  assert (Hrev : map (λ i, N - i)%nat (seq 1 N) = reverse (seq 0 N)).
  { apply list_eq; intros k. rewrite list_lookup_fmap.
    destruct (decide (k < N)%nat) as [Hk|Hk].
    - rewrite lookup_seq_lt by done. simpl.
      rewrite reverse_lookup by (rewrite length_seq; lia).
      rewrite length_seq, lookup_seq_lt by lia. f_equal; lia.
    - rewrite lookup_seq_ge by lia. simpl. symmetry.
      apply lookup_ge_None_2. rewrite length_reverse, length_seq. lia. }
  rewrite <- (map_map (λ i, N - i)%nat h), Hrev.
  apply sumZ_perm, fmap_Permutation, reverse_Permutation.
Qed.

Lemma diagSum_S N :
  diagSum e (S N) = diagSum e N + sumZ (map (λ r, e r N) (seq 0 N)).
Proof.
  unfold diagSum. replace (S N - 1)%nat with N by lia.
  rewrite <- (sum_reversed (λ r, e r N) N).
  transitivity (sumZ (map (λ i, sumZ (map (λ r, e r (r + i)%nat)
                                          (seq 0 (N - i)))
                                + e (N - i)%nat N) (seq 1 N))).
  - apply sumZ_map_ext_in. intros i Hi. apply elem_of_seq in Hi.
    replace (S N - i)%nat with (S (N - i)) by lia.
    rewrite seq_S, map_app, sumZ_app. simpl.
    replace (N - i + i)%nat with N by lia. lia.
  - rewrite sumZ_map_add. f_equal.
    destruct N as [|N]; [done|].
    replace (S N - 1)%nat with N by lia.
    rewrite (seq_S N 1), map_app, sumZ_app. simpl.
    replace (N - N)%nat with 0%nat by lia. simpl. lia.
Qed.

Lemma diagSum_upperSum N : diagSum e N = upperSum e N.
Proof.
  induction N as [|N IH]; [done|].
  by rewrite diagSum_S, upperSum_S, IH.
Qed.

End TriangleSums.

Section MatrixFacts.

Implicit Types (Rm : list (list Z)).

Lemma shape1_is_matrix {A} N (D : matrix A) : is_matrix N N D → shape1 D = N.
Proof.
  intros [HN HF]. unfold shape1. destruct D as [|row D]; simpl in *; [done|].
  by apply Forall_inv in HF.
Qed.

(** A matrix is the table of its entries. *)
Lemma matrix_entries N M Rm :
  is_matrix N M Rm →
  Rm = map (λ r, map (entry Rm r) (seq 0 M)) (seq 0 N).
Proof.
  intros HM. pose proof HM as [HN _].
  apply list_eq; intros i. rewrite list_lookup_fmap.
  destruct (decide (i < N)%nat) as [Hi|Hi].
  - destruct (lookup_lt_is_Some_2 Rm i) as [row Hrow]; [lia|].
    rewrite lookup_seq_lt, Hrow by done. simpl. f_equal.
    pose proof (is_matrix_lookup _ _ _ _ _ HM Hrow) as Hlen.
    apply list_eq; intros j. rewrite list_lookup_fmap.
    destruct (decide (j < M)%nat) as [Hj|Hj].
    + destruct (lookup_lt_is_Some_2 row j) as [v Hv]; [lia|].
      rewrite lookup_seq_lt by done. simpl.
      unfold entry. rewrite Hrow. simpl. by rewrite Hv.
    + rewrite lookup_seq_ge by lia. apply lookup_ge_None_2. lia.
  - rewrite lookup_seq_ge by lia. apply lookup_ge_None_2. lia.
Qed.

Lemma entry_binary Rm r c : binary_matrix Rm → entry Rm r c = 0 ∨ entry Rm r c = 1.
Proof.
  intros HB. unfold entry.
  destruct (Rm !! r) as [row|] eqn:Hr; simpl; [|by left].
  destruct (row !! c) as [v|] eqn:Hc; simpl; [|by left].
  unfold binary_matrix, binary in HB. rewrite Forall_forall in HB.
  specialize (HB row (list_elem_of_lookup_2 _ _ _ Hr)).
  rewrite Forall_forall in HB. apply HB. by eapply list_elem_of_lookup_2.
Qed.

Lemma foldl_app_concat {A B} (g : B → list A) (l : list B) : ∀ acc,
  foldl (λ x i, x ++ g i) acc l = acc ++ concat (map g l).
Proof.
  induction l as [|b l IH]; intros acc; simpl.
  - by rewrite app_nil_r.
  - by rewrite IH, app_assoc.
Qed.

(** The sequence [getRQADiags] scans: every upper diagonal followed by 0. *)
Lemma diagSequence_concat Rm :
  diagSequence Rm =
  concat (map (λ i, diagonal Rm i ++ [0]) (seq 1 (shape1 Rm - 1))).
Proof. unfold diagSequence. by rewrite foldl_app_concat. Qed.

Lemma binary_diagSequence Rm : binary_matrix Rm → binary (diagSequence Rm).
Proof.
  intros HB. rewrite diagSequence_concat. unfold binary.
  apply Forall_concat, Forall_fmap, Forall_forall. intros i _. simpl.
  apply Forall_app. split; [|by repeat constructor].
  unfold diagonal. apply Forall_fmap, Forall_forall. intros r _.
  by apply entry_binary.
Qed.

Lemma sumZ_diagSequence N Rm :
  is_matrix N N Rm → sumZ (diagSequence Rm) = diagSum (entry Rm) N.
Proof.
  intros HM. rewrite diagSequence_concat, (shape1_is_matrix N Rm HM).
  rewrite sumZ_concat, map_map. unfold diagSum.
  apply sumZ_map_ext_in. intros i Hi.
  rewrite sumZ_app. simpl. unfold diagonal.
  rewrite (shape1_is_matrix N Rm HM). unfold shape0.
  destruct HM as [-> _].
  replace (N `min` (N - i))%nat with (N - i)%nat by lia. lia.
Qed.

(** [R[I > J]] holds the entries strictly above the main diagonal. *)
Lemma sumZ_upper N Rm :
  is_matrix N N Rm →
  let IJ := meshgrid (arange N) (arange N) in
  sumZ (mask_select Rm (gt_mask IJ.1 IJ.2)) = upperSum (entry Rm) N.
Proof.
  intros HM. cbv zeta. unfold meshgrid, gt_mask, mask_select, upperSum. simpl.
  rewrite (zip_with_fmap_same _ _ _ (arange N)).
  rewrite (matrix_entries N N Rm HM) at 1.
  unfold arange. rewrite map_map.
  rewrite (zip_with_fmap_same _ _ _ (seq 0 N)).
  rewrite sumZ_concat, map_map.
  apply sumZ_map_ext_in. intros r _. f_equal.
  rewrite (map_map Z.of_nat (λ _, Z.of_nat r)).
  rewrite (zip_with_fmap_same _ Z.of_nat (λ _, Z.of_nat r)).
  unfold zip.
  rewrite (zip_with_fmap_same pair (entry Rm r)
             (λ y, bool_decide (Z.of_nat r < Z.of_nat y)) (seq 0 N)).
  rewrite omap_fmap. reflexivity.
Qed.

End MatrixFacts.

Section Symmetric.

Implicit Types (Rm P : list (list Z)).

Lemma column_entries K M P j :
  is_matrix K M P → column P j = map (λ r, entry P r j) (seq 0 K).
Proof.
  intros [HK _]. unfold column. apply list_eq; intros r.
  rewrite !list_lookup_fmap.
  destruct (decide (r < K)%nat) as [Hr|Hr].
  - destruct (lookup_lt_is_Some_2 P r) as [row Hrow]; [lia|].
    rewrite lookup_seq_lt, Hrow by done. simpl.
    unfold entry. by rewrite Hrow.
  - rewrite lookup_seq_ge by lia. rewrite lookup_ge_None_2 by lia. done.
Qed.

(** In a symmetric square matrix the columns are the rows. *)
Lemma columns_symmetric K P :
  is_matrix K K P → (∀ i j, entry P i j = entry P j i) → columns P = P.
Proof.
  intros HP Hsym. unfold columns. rewrite (shape1_is_matrix K P HP).
  etransitivity; [|symmetry; exact (matrix_entries K K P HP)].
  apply map_ext_in. intros j _.
  rewrite (column_entries K K P j HP).
  apply map_ext. intros r. apply Hsym.
Qed.

Lemma is_matrix_padded N Rm :
  is_matrix N N Rm → is_matrix (N + 1) (N + 1) (padded Rm).
Proof.
  intros HM. rewrite (padded_rows N Rm HM). split.
  - rewrite length_map, length_app. simpl. destruct HM as [-> _]. lia.
  - apply Forall_fmap, Forall_app. destruct HM as [_ HF]. split.
    + eapply Forall_impl; [exact HF|]. intros row Hrow. simpl.
      rewrite length_app, Hrow. simpl. lia.
    + repeat constructor. simpl. rewrite length_app, length_replicate.
      simpl. lia.
Qed.

Lemma entry_padded N Rm i j :
  is_matrix N N Rm →
  entry (padded Rm) i j =
  if decide (i < N ∧ j < N)%nat then entry Rm i j else 0.
Proof.
  intros HM. rewrite (padded_rows N Rm HM).
  rewrite (matrix_entries N N Rm HM) at 1.
  unfold entry at 1. rewrite list_lookup_fmap.
  destruct (decide (i < N)%nat) as [Hi|Hi].
  - rewrite lookup_app_l by (by rewrite length_map, length_seq).
    rewrite list_lookup_fmap, lookup_seq_lt by done. simpl.
    destruct (decide (j < N)%nat) as [Hj|Hj].
    + rewrite lookup_app_l by (by rewrite length_map, length_seq).
      rewrite list_lookup_fmap, lookup_seq_lt by done. simpl.
      by rewrite decide_True.
    + rewrite decide_False by lia.
      destruct (decide (j = N)) as [->|Hne].
      * rewrite lookup_app_r by (rewrite length_map, length_seq; lia).
        by rewrite length_map, length_seq, Nat.sub_diag.
      * rewrite lookup_ge_None_2; [done|].
        rewrite length_app, length_map, length_seq. simpl. lia.
  - rewrite decide_False by lia.
    destruct (decide (i = N)) as [->|Hne].
    + rewrite lookup_app_r by (rewrite length_map, length_seq; lia).
      rewrite length_map, length_seq, Nat.sub_diag. simpl.
      destruct (decide (j < N)%nat) as [Hj|Hj].
      * rewrite lookup_app_l by (by rewrite length_replicate).
        by rewrite lookup_replicate_2.
      * destruct (decide (j = N)) as [->|Hne].
        -- rewrite lookup_app_r by (rewrite length_replicate; lia).
           by rewrite length_replicate, Nat.sub_diag.
        -- rewrite lookup_ge_None_2; [done|].
           rewrite length_app, length_replicate. simpl. lia.
    + rewrite lookup_ge_None_2; [done|].
      rewrite length_app, length_map, length_seq. simpl. lia.
Qed.

(** On a symmetric matrix the row-wise scan of [getRQAVerts] gives the
    vertical runs. *)
Lemma getRQAVerts_symmetric N Rm :
  is_matrix N N Rm → (∀ i j, entry Rm i j = entry Rm j i) →
  getRQAVerts Rm = vertsPerColumn Rm.
Proof.
  intros HM Hsym. rewrite (getRQAVerts_per_row N Rm HM).
  unfold vertsPerColumn, vertsPerRow.
  rewrite (columns_symmetric (N + 1) (padded Rm)); [done| |].
  - by apply is_matrix_padded.
  - intros i j. rewrite !(entry_padded N) by done.
    destruct (decide (i < N ∧ j < N)%nat) as [[? ?]|Hn].
    + by rewrite decide_True by done.
    + by rewrite decide_False by lia.
Qed.

End Symmetric.

Section Ratios.

Local Open Scope Q_scope.

Lemma zeroDenom_inject_Z (b : Z) :
  zeroDenom (inject_Z b) = if decide (b = 0%Z) then 1 else inject_Z b.
Proof.
  unfold zeroDenom. destruct (Qeq_bool (inject_Z b) 0) eqn:E.
  - apply Qeq_bool_eq in E. unfold Qeq in E. simpl in E.
    rewrite decide_True by lia. reflexivity.
  - apply Qeq_bool_neq in E. rewrite decide_False; [done|].
    intros ->. by apply E.
Qed.

(** A guarded ratio of integers [0 ≤ a ≤ b] lies in the unit interval, and
    is 0 when the denominator is 0. *)
Lemma guarded_ratio_unit (a b : Z) :
  (0 ≤ a ≤ b)%Z →
  0 <= inject_Z a / zeroDenom (inject_Z b) ∧
  inject_Z a / zeroDenom (inject_Z b) <= 1 ∧
  (b = 0%Z → inject_Z a / zeroDenom (inject_Z b) == 0).
Proof.
  intros [Ha Hab]. rewrite zeroDenom_inject_Z.
  destruct (decide (b = 0%Z)) as [->|Hb].
  - assert (a = 0)%Z as -> by lia. by repeat split.
  - assert (Hpos : 0 < inject_Z b).
    { change 0 with (inject_Z 0). rewrite <- Zlt_Qlt. lia. }
    split; [|split; [|done]].
    + apply Qle_shift_div_l; [done|]. rewrite Qmult_0_l.
      change 0 with (inject_Z 0). by rewrite <- Zle_Qle.
    + apply Qle_shift_div_r; [done|]. rewrite Qmult_1_l.
      by rewrite <- Zle_Qle.
Qed.

End Ratios.

Section ZeroMatrix.

Lemma getContinuousRuns_all_zero x : all_zero x → getContinuousRuns x = ∅.
Proof.
  intros Hx. unfold getContinuousRuns.
  assert (H : scan scan_init x = scan_init); [|by rewrite H].
  induction Hx as [|v x -> _ IH]; [done|exact IH].
Qed.

Lemma is_matrix_zeros N M : is_matrix N M (zeros N M).
Proof.
  unfold is_matrix, zeros. rewrite length_replicate. split; [done|].
  apply Forall_replicate, length_replicate.
Qed.

Lemma all_zero_flatten_zeros N M : all_zero (flatten (zeros N M)).
Proof.
  apply Forall_concat, Forall_replicate, Forall_replicate. reflexivity.
Qed.

Lemma entry_zeros N M r c : entry (zeros N M) r c = 0.
Proof.
  pose proof (all_zero_flatten_zeros N M) as H.
  unfold entry. destruct (zeros N M !! r) as [row|] eqn:Hr; simpl; [|done].
  destruct (row !! c) as [v|] eqn:Hc; simpl; [|done].
  apply lookup_replicate in Hr as [-> _].
  by apply lookup_replicate in Hc as [-> _].
Qed.

Lemma getRQAVerts_zeros N : getRQAVerts (zeros N N) = ∅.
Proof.
  apply getContinuousRuns_all_zero. unfold flatten.
  rewrite (padded_rows N _ (is_matrix_zeros N N)).
  apply Forall_concat, Forall_fmap, Forall_app. split.
  - apply Forall_replicate. simpl. apply Forall_app.
    split; [by apply Forall_replicate|by repeat constructor].
  - repeat constructor. simpl. apply Forall_app.
    split; [by apply Forall_replicate|by repeat constructor].
Qed.

Lemma getRQADiags_zeros N : getRQADiags (zeros N N) = ∅.
Proof.
  apply getContinuousRuns_all_zero. rewrite diagSequence_concat.
  apply Forall_concat, Forall_fmap, Forall_forall. intros i _. simpl.
  apply Forall_app. split; [|by repeat constructor].
  unfold diagonal. apply Forall_fmap, Forall_forall. intros r _.
  apply entry_zeros.
Qed.

Lemma size2_zeros N M : size2 (zeros N M) = (N * M)%nat.
Proof.
  unfold size2, zeros. induction N as [|N IH]; simpl; [done|].
  by rewrite length_app, length_replicate, IH.
Qed.

Lemma filter_ones_all_zero x : all_zero x → filter (λ v, v = 1) x = [].
Proof.
  induction 1 as [|v x -> _ IH]; [done|].
  rewrite filter_cons_False by done. exact IH.
Qed.

Lemma items_from_empty lo : items_from lo ∅ = [].
Proof. unfold items_from. by rewrite map_to_list_empty. Qed.

Lemma sumLengths_from_empty lo : sumLengths_from lo ∅ = 0.
Proof. unfold sumLengths_from. by rewrite items_from_empty. Qed.

Lemma sumLengths_empty : sumLengths ∅ = 0.
Proof. unfold sumLengths. by rewrite map_to_list_empty. Qed.

Lemma longest_empty : longest ∅ = 0.
Proof. unfold longest. by rewrite map_size_empty. Qed.

End ZeroMatrix.

(** C3, as the code behaves.  For the all-zero N×N matrix (N ≥ 1) and any
    minimum lengths, RR = 0, DET = 0, LAM = 0, Lmax = 0, Vmax = 0 and
    ENTR = 0: the guard replaces a zero denominator by 1.0, and the
    numerators are 0. *)
Theorem getRQAStats_zeros (N : nat) (dmin vmin : Z) :
  (1 ≤ N)%nat →
  let st := getRQAStats (zeros N N) dmin vmin in
  (∃ rr, RR st = Some rr ∧ rr == 0)%Q ∧
  (DET st == 0)%Q ∧ (LAM st == 0)%Q ∧
  Lmax st = 0 ∧ Vmax st = 0 ∧ ENTR st = 0%R.
Proof.
  intros HN. cbv zeta. unfold getRQAStats.
  rewrite getRQAVerts_zeros, getRQADiags_zeros.
  cbn [RR DET LAM Lmax Vmax ENTR].
  rewrite !sumLengths_from_empty, sumLengths_empty, items_from_empty,
    !longest_empty.
  split; [|split; [|split; [|split; [|split]]]].
  - rewrite decide_False by (rewrite size2_zeros; nia).
    eexists. split; [reflexivity|].
    rewrite (filter_ones_all_zero _ (all_zero_flatten_zeros N N)). reflexivity.
  - reflexivity.
  - reflexivity.
  - reflexivity.
  - reflexivity.
  - unfold entropy. simpl. lra.
Qed.

Lemma getRQAStats_zeros_witness :
  let st := getRQAStats (zeros 2 2) 5 5 in
  (DET st == 0)%Q ∧ (LAM st == 0)%Q.
Proof.
  pose proof (getRQAStats_zeros 2 5 5 ltac:(lia)) as H. cbv zeta in H.
  cbv zeta. tauto.
Defined.

(** For the all-zero 2×2 matrix DET and LAM are not 1. *)
Lemma getRQAStats_zeros_DET_LAM_not_one :
  ¬ ((DET (getRQAStats (zeros 2 2) 5 5) == 1)%Q ∧
     (LAM (getRQAStats (zeros 2 2) 5 5) == 1)%Q).
Proof. intros [H _]. vm_compute in H. discriminate H. Qed.

(** C9.  For an N×N binary matrix and any minimum lengths, DET and LAM lie
    in [0, 1]: the sum of length·count over the runs of at least the minimum
    length is between 0 and the denominator (the sum of the entries strictly
    above the main diagonal for DET, the sum over all vertical-run lengths
    for LAM), and with a denominator of 0 the guarded ratio is 0. *)
Theorem DET_LAM_unit_interval (N : nat) (Rm : matrix Z) (dmin vmin : Z) :
  is_matrix N N Rm → binary_matrix Rm →
  let st := getRQAStats Rm dmin vmin in
  let Diags := getRQADiags Rm in
  let Verts := getRQAVerts Rm in
  (DET st = inject_Z (sumLengths_from dmin Diags)
            / zeroDenom (inject_Z (upperOnes Rm)))%Q ∧
  (LAM st = inject_Z (sumLengths_from vmin Verts)
            / zeroDenom (inject_Z (sumLengths Verts)))%Q ∧
  0 ≤ sumLengths_from dmin Diags ≤ upperOnes Rm ∧
  0 ≤ sumLengths_from vmin Verts ≤ sumLengths Verts ∧
  (0 <= DET st)%Q ∧ (DET st <= 1)%Q ∧
  (0 <= LAM st)%Q ∧ (LAM st <= 1)%Q ∧
  (upperOnes Rm = 0 → (DET st == 0)%Q) ∧
  (sumLengths Verts = 0 → (LAM st == 0)%Q).
Proof.
  intros HM HB. cbv zeta.
  assert (HD : 0 ≤ sumLengths_from dmin (getRQADiags Rm) ≤ upperOnes Rm).
  { pose proof (sumLengths_from_bounds dmin _
                  (getContinuousRuns_pos (diagSequence Rm))) as H1.
    pose proof (sumLengths_le_ones _ (binary_diagSequence Rm HB)) as H2.
    rewrite (sumZ_diagSequence N Rm HM), diagSum_upperSum in H2.
    pose proof (sumZ_upper N Rm HM) as H3. cbv zeta in H3.
    unfold upperOnes, shape0. rewrite (proj1 HM), H3.
    unfold getRQADiags. lia. }
  assert (HV : 0 ≤ sumLengths_from vmin (getRQAVerts Rm)
               ≤ sumLengths (getRQAVerts Rm)).
  { apply sumLengths_from_bounds, getContinuousRuns_pos. }
  destruct (guarded_ratio_unit _ _ HD) as (HD0 & HD1 & HDz).
  destruct (guarded_ratio_unit _ _ HV) as (HV0 & HV1 & HVz).
  repeat split; try done; lia.
Qed.

Lemma DET_LAM_unit_interval_witness :
  let Rm := [[0; 1; 1]; [1; 0; 1]; [1; 1; 0]] in
  (0 <= DET (getRQAStats Rm 2 2))%Q ∧ (DET (getRQAStats Rm 2 2) <= 1)%Q.
Proof.
  cbv zeta.
  assert (HM : is_matrix 3 3 [[0; 1; 1]; [1; 0; 1]; [1; 1; 0]])
    by (split; [reflexivity|repeat constructor]).
  assert (HB : binary_matrix [[0; 1; 1]; [1; 0; 1]; [1; 1; 0]])
    by (repeat constructor; lia).
  pose proof (DET_LAM_unit_interval 3 _ 2 2 HM HB) as H. cbv zeta in H.
  split; apply H.
Defined.

Section BinarizerFacts.

Context {A : Type}.
Implicit Types (D : list (list A)).

(** Only the rows carry the width: an array without rows has [shape1 = 0],
    and then [zeros]/[ones] of any width is the empty list of rows. *)
Lemma zeros_shape N M D :
  is_matrix N M D → zeros (shape0 D) (shape1 D) = zeros N M.
Proof.
  intros [HN HF]. unfold shape0, shape1, zeros. subst N.
  destruct D as [|row D]; simpl; [done|].
  apply Forall_inv in HF. by rewrite HF.
Qed.

Lemma ones_shape N M D :
  is_matrix N M D → ones (shape0 D) (shape1 D) = ones N M.
Proof.
  intros [HN HF]. unfold shape0, shape1, ones. subst N.
  destruct D as [|row D]; simpl; [done|].
  apply Forall_inv in HF. by rewrite HF.
Qed.

Lemma size2_is_matrix N M D : is_matrix N M D → size2 D = (N * M)%nat.
Proof.
  intros [HN HF]. subst N. unfold size2.
  induction HF as [|row D Hrow _ IH]; simpl; [done|].
  by rewrite length_app, Hrow, IH.
Qed.

Lemma concat_nils {B C} (l : list B) : concat (map (λ _, @nil C) l) = [].
Proof. induction l as [|b l IH]; simpl; [done|exact IH]. Qed.

End BinarizerFacts.

Lemma np_round_small (x : Q) : (0 <= x)%Q → (x <= 1 # 2)%Q → np_round x = 0.
Proof.
  intros H0 H1. unfold np_round.
  assert (Hf : Qfloor x = 0).
  { pose proof (Qfloor_le x) as Hle. pose proof (Qlt_floor x) as Hlt.
    rewrite inject_Z_plus in Hlt.
    assert (H2 : (inject_Z (-1) < inject_Z (Qfloor x))%Q).
    { change (inject_Z (-1)) with (-1)%Q. change (inject_Z 1) with 1%Q in Hlt.
      lra. }
    assert (H3 : (inject_Z (Qfloor x) < inject_Z 1)%Q).
    { change (inject_Z 1) with 1%Q. lra. }
    rewrite <- Zlt_Qlt in H2, H3. lia. }
  rewrite Hf.
  destruct (x - inject_Z 0 ?= 1 # 2)%Q eqn:E; try reflexivity.
  exfalso. rewrite <- Qgt_alt in E. change (inject_Z 0) with 0%Q in E. lra.
Qed.

Lemma np_round_zero_inv (x : Q) : np_round x = 0 → (x <= 1 # 2)%Q.
Proof.
  unfold np_round. pose proof (Qfloor_le x) as Hle.
  pose proof (Qlt_floor x) as Hlt. rewrite inject_Z_plus in Hlt.
  change (inject_Z 1) with 1%Q in Hlt.
  destruct (x - inject_Z (Qfloor x) ?= 1 # 2)%Q eqn:E.
  - apply Qeq_alt in E. destruct (Z.even (Qfloor x)); intros Hf.
    + rewrite Hf in E. change (inject_Z 0) with 0%Q in E. lra.
    + assert (Hf' : Qfloor x = -1) by lia. rewrite Hf' in E.
      change (inject_Z (-1)) with (-1)%Q in E. lra.
  - apply Qlt_alt in E. intros Hf. rewrite Hf in E.
    change (inject_Z 0) with 0%Q in E. lra.
  - intros Hf. assert (Hf' : Qfloor x = -1) by lia. rewrite Hf' in Hlt.
    change (inject_Z (-1)) with (-1)%Q in Hlt. lra.
Qed.

(** Facts on float64 rounding. *)

Section RoundingFacts.

Local Open Scope Q_scope.

Lemma pow2_pos e : 0 < pow2 e.
Proof.
  unfold pow2. destruct (0 <=? e)%Z eqn:E.
  - apply Z.leb_le in E. change 0 with (inject_Z 0). rewrite <- Zlt_Qlt.
    by apply Z.pow_pos_nonneg.
  - reflexivity.
Qed.

Lemma pow2_half e : (e < 0)%Z → inject_Z (2 ^ (- e - 1)) * pow2 e == 1 # 2.
Proof.
  intros He. unfold pow2. rewrite (proj2 (Z.leb_gt 0 e)) by lia.
  unfold Qeq, Qmult, inject_Z. cbn [Qnum Qden].
  rewrite Pos.mul_1_l, Z2Pos.id by (apply Z.pow_pos_nonneg; lia).
  replace (- e)%Z with (Z.succ (- e - 1)) at 2 by lia.
  rewrite Z.pow_succ_r by lia. lia.
Qed.

Lemma rne_nonneg q : 0 <= q → (0 ≤ rne q)%Z.
Proof.
  intros Hq. unfold rne.
  assert (Hf : (0 ≤ Qfloor q)%Z).
  { change 0%Z with (Qfloor 0). by apply Qfloor_resp_le. }
  destruct (q - inject_Z (Qfloor q) ?= 1 # 2); [destruct (Z.even _)| |]; lia.
Qed.

Lemma rne_le_int q K : q <= inject_Z K → (rne q ≤ K)%Z.
Proof.
  intros Hq. unfold rne.
  assert (Hf : (Qfloor q ≤ K)%Z).
  { rewrite <- (Qfloor_Z K). by apply Qfloor_resp_le. }
  destruct (Z.eq_dec (Qfloor q) K) as [HK|HK].
  - assert (Hfl : Qcompare (q - inject_Z (Qfloor q)) (1 # 2) = Lt).
    { rewrite <- Qlt_alt. rewrite HK.
      assert (q - inject_Z K <= 0) by lra. lra. }
    rewrite Hfl. lia.
  - destruct (q - inject_Z (Qfloor q) ?= 1 # 2); [destruct (Z.even _)| |]; lia.
Qed.

Lemma f64_round_compat x y : x == y → f64_round x = f64_round y.
Proof. intros H. unfold f64_round. by rewrite (Qred_complete x y H). Qed.

Lemma f64_round_zero x : x == 0 → f64_round x = Fin 0.
Proof.
  intros H. rewrite (f64_round_compat x 0 H). reflexivity.
Qed.

Lemma f64_round_nonneg x : 0 <= x → nonneg64 (f64_round x).
Proof.
  intros Hx. unfold f64_round.
  assert (Hq : 0 <= Qred x) by (by rewrite Qred_correct).
  set (q := Qred x) in *.
  destruct (Qeq_bool q 0); [simpl; lra|].
  set (e := Z.max (ilog2 q - 52) (-1074)).
  set (m := rne (q / pow2 e)).
  assert (Hm : (0 ≤ m)%Z).
  { apply rne_nonneg. apply Qle_shift_div_l; [apply pow2_pos|lra]. }
  assert (Hr : 0 <= Qred (inject_Z m * pow2 e)).
  { rewrite Qred_correct. apply Qmult_le_0_compat.
    - change 0 with (inject_Z 0). by rewrite <- Zle_Qle.
    - apply Qlt_le_weak, pow2_pos. }
  destruct (Qle_bool _ _); simpl; [|done].
  apply Z.ltb_ge. unfold Qle in Hr. simpl in Hr. lia.
Qed.

Lemma ilog2_small q : 0 < q → q <= 1 # 2 → (ilog2 q ≤ 0)%Z.
Proof.
  intros H0 H1. unfold ilog2.
  assert (Hn : (0 < Qnum q)%Z).
  { unfold Qlt in H0. simpl in H0. lia. }
  assert (Hd : (Qnum q ≤ Z.pos (Qden q))%Z).
  { unfold Qle in H1. simpl in H1. lia. }
  assert (Hg : (Z.log2 (Z.abs (Qnum q)) - Z.log2 (Z.pos (Qden q)) ≤ 0)%Z).
  { rewrite Z.abs_eq by lia. pose proof (Z.log2_le_mono _ _ Hd). lia. }
  destruct (Qle_bool _ _); lia.
Qed.

Lemma f64_round_small x :
  0 <= x → x <= 1 # 2 → ∃ r, f64_round x = Fin r ∧ 0 <= r ∧ r <= 1 # 2.
Proof.
  intros H0 H1. unfold f64_round.
  assert (Hq0 : 0 <= Qred x) by (by rewrite Qred_correct).
  assert (Hq1 : Qred x <= 1 # 2) by (by rewrite Qred_correct).
  set (q := Qred x) in *.
  destruct (Qeq_bool q 0) eqn:E.
  { exists 0. split; [done|]. split; [lra|done]. }
  assert (Hpos : 0 < q).
  { apply Qeq_bool_neq in E. apply Qle_lt_or_eq in Hq0 as [?|Heq]; [done|].
    exfalso. apply E. by symmetry. }
  set (e := Z.max (ilog2 q - 52) (-1074)).
  assert (He : (e < 0)%Z).
  { pose proof (ilog2_small q Hpos Hq1). unfold e. lia. }
  pose proof (pow2_pos e) as Hp. pose proof (pow2_half e He) as Hhalf.
  set (K := (2 ^ (- e - 1))%Z) in *.
  set (m := rne (q / pow2 e)).
  assert (Hm0 : (0 ≤ m)%Z).
  { apply rne_nonneg. apply Qle_shift_div_l; [done|lra]. }
  assert (HmK : (m ≤ K)%Z).
  { apply rne_le_int. apply Qle_shift_div_r; [done|]. rewrite Hhalf. done. }
  assert (Hr0 : 0 <= Qred (inject_Z m * pow2 e)).
  { rewrite Qred_correct. apply Qmult_le_0_compat; [|lra].
    change 0 with (inject_Z 0). by rewrite <- Zle_Qle. }
  assert (Hr1 : Qred (inject_Z m * pow2 e) <= 1 # 2).
  { rewrite Qred_correct, <- Hhalf. apply Qmult_le_compat_r; [|lra].
    by rewrite <- Zle_Qle. }
  set (r := Qred (inject_Z m * pow2 e)) in *.
  assert (Hov : Qle_bool (pow2 1024) (Qabs r) = false).
  { destruct (Qle_bool (pow2 1024) (Qabs r)) eqn:Eo; [|done].
    apply Qle_bool_iff in Eo. rewrite Qabs_pos in Eo by done.
    assert (H2 : 1 <= pow2 1024) by (vm_compute; discriminate).
    lra. }
  rewrite Hov. by exists r.
Qed.

Lemma sqrt64_zero : sqrt64 (Fin 0) = Fin 0.
Proof. reflexivity. Qed.

Lemma sqrt64_nonneg a : nonneg64 a → nonneg64 (sqrt64 a).
Proof.
  destruct a as [q|s|]; simpl; [|by intros ->|done].
  intros Hq. destruct (Qeq_bool q 0) eqn:E; [simpl; lra|].
  destruct (Qle_bool q 0) eqn:E2.
  { apply Qle_bool_iff in E2. apply Qeq_bool_neq in E. apply E. lra. }
  apply f64_round_nonneg.
  apply Qle_shift_div_l.
  - change 0 with (inject_Z 0). rewrite <- Zlt_Qlt.
    apply Z.pow_pos_nonneg; lia.
  - rewrite Qmult_0_l. change 0 with (inject_Z 0). rewrite <- Zle_Qle.
    pose proof (Z.sqrt_nonneg (Qnum q * 4 ^ Z.max 0 (54 - ilog2 q / 2)
                               / Z.pos (Qden q))).
    destruct (_ =? _)%Z; lia.
Qed.

End RoundingFacts.

(** A positive fraction whose exact product with [M] rounds to 0 gives the
    neighbour count 0: the float64 product is at most 1/2 as well. *)
Lemma NNeighbs_tiny (q : Q) (M : nat) :
  (0 < q)%Q → (q < 1)%Q →
  np_round (q * inject_Z (Z.of_nat M)) = 0 →
  NNeighbs (PyFloat q) M = Some (PyInt 0).
Proof.
  intros H0 H1 Hr. unfold NNeighbs. cbn [num_val].
  destruct (Qlt_le_dec q 1) as [_|Hge]; [|by apply Qle_not_lt in Hge].
  cbn [mul64].
  destruct (f64_round_small (q * inject_Z (Z.of_nat M))) as (r & -> & Hr0 & Hr1).
  - apply Qmult_le_0_compat; [by apply Qlt_le_weak|].
    change 0%Q with (inject_Z 0). rewrite <- Zle_Qle. lia.
  - by apply np_round_zero_inv.
  - by rewrite np_round_small.
Qed.

Section KappaEdgeCases.

Variable argpartition : list Q → nat → list nat.

(** C7.  For [Kappa] equal to 0 (given as an int or as a float) and every
    N×M matrix [D], [CSMToBinary] returns an N×M matrix every entry of
    which is 1: each of its N rows has length M, and the entry in row [i]
    and column [j] is 1 for all [i < N] and [j < M]. *)
Theorem CSMToBinary_Kappa_zero (N M : nat) (D : matrix Q) (Kappa : pynum) :
  is_matrix N M D → (num_val Kappa == 0)%Q →
  ∃ B, CSMToBinary argpartition D Kappa = Some B ∧
       is_matrix N M B ∧
       Forall (Forall (λ v, v = 1)) B ∧
       ∀ i j, (i < N)%nat → (j < M)%nat → entry_of B i j = Some 1.
Proof.
  intros HM HK. exists (ones N M). split; [|split; [|split]].
  - unfold CSMToBinary.
    rewrite (proj2 (Qeq_bool_iff _ _) HK). by rewrite (ones_shape N M D HM).
  - unfold ones. split; [apply length_replicate|].
    apply Forall_replicate, length_replicate.
  - by apply Forall_replicate, Forall_replicate.
  - intros i j Hi Hj. unfold entry_of, ones.
    rewrite lookup_replicate_2 by done. simpl.
    by rewrite lookup_replicate_2.
Qed.

Lemma CSMToBinary_tiny_count (N M : nat) (D : matrix Q) (q : Q) :
  is_matrix N M D → (0 < q)%Q → (q < 1)%Q →
  np_round (q * inject_Z (Z.of_nat M)) = 0 →
  CSMToBinary argpartition D (PyFloat q) = Some (zeros N M).
Proof.
  intros HM H0 H1 Hr. unfold CSMToBinary. cbn [num_val].
  destruct (Qeq_bool q 0) eqn:E.
  { apply Qeq_bool_eq in E. rewrite E in H0. by apply Qlt_irrefl in H0. }
  assert (Hr' : np_round (q * inject_Z (Z.of_nat (shape1 D))) = 0).
  { destruct D as [|row D].
    { change (shape1 (@nil (list Q))) with 0%nat.
      change (inject_Z (Z.of_nat 0)) with 0%Q. apply np_round_small; lra. }
    unfold shape1. simpl. destruct HM as [_ HF]. apply Forall_inv in HF.
    by rewrite HF. }
  rewrite (NNeighbs_tiny q (shape1 D) H0 H1 Hr').
  assert (Hb : (0 <? 0) || negb (size2 D =? 0)%nat && (Z.of_nat (shape1 D) <=? 0)
               = false).
  { simpl. destruct (size2 D =? 0)%nat eqn:Es; [done|]. simpl.
    apply Z.leb_gt. apply Nat.eqb_neq in Es.
    destruct D as [|row D]; [done|]. unfold shape1. simpl.
    destruct row; [|simpl; lia].
    exfalso. apply Es. rewrite (size2_is_matrix _ _ _ HM).
    destruct HM as [_ HF]. apply Forall_inv in HF. simpl in HF. subst M. lia. }
  rewrite Hb. change (Z.to_nat 0) with 0%nat.
  change (λ row : list Q, take 0 (argpartition row 0))
    with (λ _ : list Q, @nil nat).
  change (λ i : nat, replicate 0 i) with (λ _ : nat, @nil nat).
  unfold flatten, size2. rewrite !concat_nils. simpl.
  unfold coo_toarray.
  rewrite decide_True by (repeat split; constructor).
  simpl. by rewrite (zeros_shape N M D HM).
Qed.

(** C10.  For 0 < Kappa < 1 with [round(Kappa·M) = 0], [CSMToBinary]
    returns the all-zero N×M matrix, whereas Kappa = 0 gives the all-ones
    matrix; every positive Kappa with Kappa·M ≤ 1/2 is such a value, and
    the two matrices differ as soon as there is an entry. *)
Theorem CSMToBinary_small_Kappa_all_zero (N M : nat) (D : matrix Q) (q : Q) :
  is_matrix N M D → (0 < q)%Q → (q < 1)%Q →
  np_round (q * inject_Z (Z.of_nat M)) = 0 →
  CSMToBinary argpartition D (PyFloat q) = Some (zeros N M) ∧
  CSMToBinary argpartition D (PyFloat 0) = Some (ones N M) ∧
  (∀ q' : Q, (0 < q')%Q → (q' < 1)%Q →
             (q' * inject_Z (Z.of_nat M) <= 1 # 2)%Q →
             CSMToBinary argpartition D (PyFloat q') = Some (zeros N M)) ∧
  ((1 ≤ N)%nat → (1 ≤ M)%nat → zeros N M ≠ ones N M).
Proof.
  intros HM H0 H1 Hr. split; [by apply CSMToBinary_tiny_count|].
  split.
  { unfold CSMToBinary. simpl. by rewrite (ones_shape N M D HM). }
  split.
  - intros q' Hq0 Hq1 Hsmall. apply CSMToBinary_tiny_count; try done.
    apply np_round_small; [|done].
    apply Qmult_le_0_compat; [by apply Qlt_le_weak|].
    change 0%Q with (inject_Z 0). rewrite <- Zle_Qle. lia.
  - intros HN HM1 Heq. destruct N as [|N]; [lia|]. destruct M as [|M]; [lia|].
    discriminate Heq.
Qed.

End KappaEdgeCases.

Lemma CSMToBinary_Kappa_zero_witness :
  ∃ B, CSMToBinary (λ _ _, []) [[1; 3]; [2; 0]]%Q (PyFloat 0) = Some B ∧
       entry_of B 0 0 = Some 1 ∧ entry_of B 0 1 = Some 1 ∧
       entry_of B 1 0 = Some 1 ∧ entry_of B 1 1 = Some 1.
Proof.
  destruct (CSMToBinary_Kappa_zero (λ _ _, []) 2 2 [[1; 3]; [2; 0]]%Q
              (PyFloat 0)) as (B & HB & _ & _ & HE).
  - split; [reflexivity|repeat constructor].
  - reflexivity.
  - exists B. split; [exact HB|].
    repeat split; apply HE; lia.
Defined.

Lemma CSMToBinary_small_Kappa_all_zero_witness :
  CSMToBinary (λ _ _, []) [[1; 3]; [2; 0]]%Q (PyFloat (1 # 5)) = Some (zeros 2 2).
Proof.
  assert (HM : is_matrix 2 2 [[1; 3]; [2; 0]]%Q)
    by (split; [reflexivity|repeat constructor]).
  assert (H0 : (0 < 1 # 5)%Q) by reflexivity.
  assert (H1 : (1 # 5 < 1)%Q) by reflexivity.
  assert (Hr : np_round ((1 # 5) * inject_Z (Z.of_nat 2)) = 0) by reflexivity.
  exact (proj1 (CSMToBinary_small_Kappa_all_zero (λ _ _, []) 2 2
                  [[1; 3]; [2; 0]]%Q (1 # 5) HM H0 H1 Hr)).
Defined.

Section CooFacts.

(** The entries of one row touch that row only. *)
Lemma foldl_add_at_row (pre rest : list (list Z)) (js : list nat) : ∀ r,
  foldl (λ A e, add_at A e.2.1 e.2.2 e.1) (pre ++ r :: rest)
        (map (λ j, (1, (length pre, j))) js) =
  pre ++ foldl (λ r j, alter (Z.add 1) j r) r js :: rest.
Proof.
  induction js as [|j js IH]; intros r; simpl; [done|].
  replace (add_at (pre ++ r :: rest) (length pre) j 1)
    with (pre ++ alter (Z.add 1) j r :: rest); [apply IH|].
  unfold add_at. rewrite <- (Nat.add_0_r (length pre)).
  by rewrite alter_app_r.
Qed.

Lemma zip_replicate_l {A B} (a : A) (l : list B) n :
  length l = n → zip (replicate n a) l = map (pair a) l.
Proof. intros <-. unfold zip. apply zip_with_replicate_l. lia. Qed.

(** Pairing the flattened row indices with the flattened column indices. *)
Lemma zip_rows_cols (k : nat) (Js : list (list nat)) : ∀ o,
  Forall (λ js, length js = k) Js →
  zip (concat (map (λ i, replicate k i) (seq o (length Js)))) (concat Js) =
  concat (zip_with (λ i js, map (pair i) js) (seq o (length Js)) Js).
Proof.
  induction Js as [|js Js IH]; intros o HF; simpl; [done|].
  apply Forall_cons in HF as [Hjs HF].
  unfold zip.
  rewrite (zip_with_app pair (replicate k o) _ js _)
    by (by rewrite length_replicate).
  f_equal; [by apply zip_replicate_l|apply IH, HF].
Qed.

Lemma length_concat_const {A} (k : nat) (ls : list (list A)) :
  Forall (λ l, length l = k) ls → length (concat ls) = (length ls * k)%nat.
Proof.
  induction 1 as [|l ls Hl _ IH]; simpl; [done|].
  by rewrite length_app, Hl, IH.
Qed.

(** [toarray] fills the array row by row. *)
Lemma foldl_add_at_rows (M : nat) (Js : list (list nat)) : ∀ pre,
  foldl (λ A e, add_at A e.2.1 e.2.2 e.1) (pre ++ zeros (length Js) M)
        (map (pair 1)
             (concat (zip_with (λ i js, map (pair i) js)
                               (seq (length pre) (length Js)) Js))) =
  pre ++ map (rowOnes M) Js.
Proof.
  induction Js as [|js Js IH]; intros pre; simpl; [done|].
  rewrite map_app, foldl_app, map_map.
  change (zeros (S (length Js)) M) with (replicate M 0 :: zeros (length Js) M).
  rewrite foldl_add_at_row.
  fold (rowOnes M js). fold (zeros (length Js) M).
  replace (pre ++ rowOnes M js :: zeros (length Js) M)
    with ((pre ++ [rowOnes M js]) ++ zeros (length Js) M)
    by (by rewrite <- app_assoc).
  replace (S (length pre)) with (length (pre ++ [rowOnes M js]))
    by (rewrite length_app; simpl; lia).
  rewrite IH. by rewrite <- app_assoc.
Qed.

End CooFacts.

Section RowFacts.

Implicit Types (r : list Z) (js : list nat).

Lemma length_foldl_alter js : ∀ r,
  length (foldl (λ r j, alter (Z.add 1) j r) r js) = length r.
Proof.
  induction js as [|j js IH]; intros r; simpl; [done|].
  by rewrite IH, length_alter.
Qed.

Lemma lookup_foldl_alter js : ∀ r j,
  NoDup js →
  foldl (λ r j, alter (Z.add 1) j r) r js !! j =
  (λ v, v + if decide (j ∈ js) then 1 else 0) <$> r !! j.
Proof.
  induction js as [|j0 js IH]; intros r j Hnd; simpl.
  - destruct (r !! j); simpl; [f_equal; lia|done].
  - apply NoDup_cons in Hnd as [Hnot Hnd].
    rewrite IH by done. rewrite list_lookup_alter.
    destruct (decide (j0 = j)) as [->|Hne].
    + rewrite decide_False by done. rewrite decide_True by left.
      destruct (r !! j); simpl; [f_equal; lia|done].
    + destruct (r !! j); simpl; [|done]. f_equal.
      destruct (decide (j ∈ js)) as [Hin|Hin].
      * by rewrite decide_True by (by right).
      * rewrite decide_False; [done|].
        intros Hc. apply elem_of_cons in Hc as [->|?]; done.
Qed.

Lemma lookup_rowOnes M js j :
  NoDup js →
  rowOnes M js !! j =
  if decide (j < M)%nat then Some (if decide (j ∈ js) then 1 else 0) else None.
Proof.
  intros Hnd. unfold rowOnes. rewrite lookup_foldl_alter by done.
  destruct (decide (j < M)%nat) as [Hj|Hj].
  - by rewrite lookup_replicate_2.
  - by rewrite (proj1 (lookup_replicate_None _ _ _)) by lia.
Qed.

Lemma sumZ_alter r : ∀ j,
  (j < length r)%nat → sumZ (alter (Z.add 1) j r) = sumZ r + 1.
Proof.
  induction r as [|v r IH]; intros [|j] Hj; csimpl in *; try lia.
  rewrite IH by lia. lia.
Qed.

Lemma sumZ_foldl_alter js : ∀ r,
  Forall (λ j, j < length r)%nat js →
  sumZ (foldl (λ r j, alter (Z.add 1) j r) r js) = sumZ r + Z.of_nat (length js).
Proof.
  induction js as [|j js IH]; intros r HF; simpl; [lia|].
  apply Forall_cons in HF as [Hj HF].
  rewrite IH by (by rewrite length_alter).
  rewrite sumZ_alter by done. lia.
Qed.

Lemma sumZ_replicate_zero n : sumZ (replicate n 0) = 0.
Proof. induction n as [|n IH]; simpl; lia. Qed.

Lemma count_ones_binary r :
  binary r → Z.of_nat (length (filter (λ v, v = 1) r)) = sumZ r.
Proof.
  induction 1 as [|v r [-> | ->] _ IH]; [done| |].
  - rewrite filter_cons_False by done. simpl. lia.
  - rewrite filter_cons_True by done. simpl length. simpl sumZ. lia.
Qed.

Lemma binary_rowOnes M js : NoDup js → binary (rowOnes M js).
Proof.
  intros Hnd. apply Forall_lookup. intros j v Hv.
  rewrite lookup_rowOnes in Hv by done.
  destruct (decide (j < M)%nat); [|done].
  destruct (decide (j ∈ js)); injection Hv as <-; auto.
Qed.

Lemma count_ones_rowOnes M js :
  NoDup js → Forall (λ j, j < M)%nat js →
  length (filter (λ v, v = 1) (rowOnes M js)) = length js.
Proof.
  intros Hnd HF. apply Nat2Z.inj.
  rewrite count_ones_binary by (by apply binary_rowOnes).
  unfold rowOnes. rewrite sumZ_foldl_alter, sumZ_replicate_zero; [lia|].
  by rewrite length_replicate.
Qed.

End RowFacts.

Section ArgpartitionFacts.

Variables (row : list Q) (k : nat) (p : list nat).
Hypothesis Hp : is_argpartition row k p = true.

Lemma argpartition_perm : p ≡ₚ seq 0 (length row).
Proof.
  unfold is_argpartition in Hp.
  apply andb_prop in Hp as [H _]. apply andb_prop in H as [H _].
  by apply bool_decide_eq_true in H.
Qed.

Lemma argpartition_length : length p = length row.
Proof. by rewrite argpartition_perm, length_seq. Qed.

Lemma argpartition_NoDup : NoDup p.
Proof. rewrite argpartition_perm. apply NoDup_seq. Qed.

Lemma argpartition_elem j : j ∈ p ↔ (j < length row)%nat.
Proof. rewrite argpartition_perm, elem_of_seq. lia. Qed.

Lemma argpartition_before j :
  j ∈ take k p → (rowVal row j <= rowVal row (default 0%nat (p !! k)))%Q.
Proof.
  intros Hj. unfold is_argpartition in Hp.
  apply andb_prop in Hp as [H _]. apply andb_prop in H as [_ H].
  rewrite forallb_forall in H. apply list_elem_of_In, H in Hj.
  by apply Qle_bool_iff in Hj.
Qed.

Lemma argpartition_after j :
  j ∈ drop k p → (rowVal row (default 0%nat (p !! k)) <= rowVal row j)%Q.
Proof.
  intros Hj. unfold is_argpartition in Hp.
  apply andb_prop in Hp as [_ H]. rewrite forallb_forall in H.
  destruct (p !! k) as [pk|] eqn:Hk.
  - rewrite (drop_S _ _ _ Hk) in Hj. apply elem_of_cons in Hj as [->|Hj].
    + apply Qle_refl.
    + apply list_elem_of_In, H in Hj. by apply Qle_bool_iff in Hj.
  - apply lookup_ge_None_1 in Hk. rewrite drop_ge in Hj by done.
    by apply elem_of_nil in Hj.
Qed.

(** The first [k] indices point at [k] smallest values of the row. *)
Lemma argpartition_smallest j j' :
  j ∈ take k p → (j' < length row)%nat → j' ∉ take k p →
  (rowVal row j <= rowVal row j')%Q.
Proof.
  intros Hj Hj' Hnot. eapply Qle_trans; [by apply argpartition_before|].
  apply argpartition_after. apply argpartition_elem in Hj'.
  rewrite <- (take_drop k p) in Hj'. apply elem_of_app in Hj' as [?|?]; done.
Qed.

End ArgpartitionFacts.

Section KNNFacts.

Variable argpartition : list Q → nat → list nat.

(** With an admissible neighbour count, [CSMToBinary] marks in every row
    the columns that come first in that row's partition. *)
Lemma CSMToBinary_rows (N M : nat) (D : matrix Q) (Kappa : pynum) (k : nat) :
  is_matrix N M D →
  ¬ (num_val Kappa == 0)%Q →
  NNeighbs Kappa M = Some (PyInt (Z.of_nat k)) →
  (k < M)%nat →
  Forall (λ row, is_argpartition row k (argpartition row k) = true) D →
  CSMToBinary argpartition D Kappa =
  Some (map (λ row, rowOnes M (take k (argpartition row k))) D).
Proof.
  intros HM HK HNN HkM Harg. unfold CSMToBinary.
  destruct (Qeq_bool (num_val Kappa) 0) eqn:E;
    [by apply Qeq_bool_eq in E|clear E].
  destruct (decide (D = [])) as [->|Hne].
  { (* no rows *)
    change (shape1 (@nil (list Q))) with 0%nat.
    assert (Hk' : ∃ k', NNeighbs Kappa 0 = Some (PyInt (Z.of_nat k'))).
    { unfold NNeighbs in *. destruct (Qlt_le_dec (num_val Kappa) 1).
      - exists 0%nat. destruct Kappa as [z|q0]; cbn [mul64].
        + do 2 f_equal. lia.
        + rewrite f64_round_zero
            by (change (inject_Z (Z.of_nat 0)) with 0%Q; ring).
          reflexivity.
      - by exists k. }
    destruct Hk' as [k' ->].
    replace (Z.of_nat k' <? 0) with false by (symmetry; apply Z.ltb_ge; lia).
    reflexivity. }
  assert (HN : shape0 D = N) by apply HM.
  assert (HM1 : shape1 D = M).
  { destruct HM as [_ HF]. destruct D as [|r D']; [done|].
    by apply Forall_inv in HF. }
  assert (Hsz : size2 D ≠ 0%nat).
  { rewrite (size2_is_matrix N M D HM). destruct D; [done|].
    simpl in HN. nia. }
  rewrite HM1, HNN, HN.
  replace (Z.of_nat k <? 0) with false by (symmetry; apply Z.ltb_ge; lia).
  replace (Z.of_nat M <=? Z.of_nat k) with false
    by (symmetry; apply Z.leb_gt; lia).
  rewrite andb_false_r, Nat2Z.id. simpl orb. cbv iota.
  set (Js := map (λ row, take k (argpartition row k)) D).
  assert (HlenJs : length Js = N).
  { unfold Js. rewrite length_map. apply HM. }
  assert (Hrows : Forall (λ row, length row = M ∧
             is_argpartition row k (argpartition row k) = true) D).
  { apply Forall_and. split; [apply HM|done]. }
  assert (HJk : Forall (λ js, length js = k) Js).
  { unfold Js. apply Forall_fmap. eapply Forall_impl; [exact Hrows|].
    intros row [Hl Ha]. simpl. rewrite length_take_le; [done|].
    rewrite (argpartition_length _ _ _ Ha). lia. }
  assert (HJM : Forall (Forall (λ j, j < M)%nat) Js).
  { unfold Js. apply Forall_fmap. eapply Forall_impl; [exact Hrows|].
    intros row [Hl Ha]. simpl. apply Forall_forall. intros j Hj.
    apply subseteq_take in Hj.
    apply (argpartition_elem _ _ _ Ha) in Hj. lia. }
  rewrite <- HlenJs.
  set (Is := map (λ i, replicate k i) (seq 0 (length Js))).
  assert (HIk : Forall (λ ixs, length ixs = k) Is).
  { unfold Is. apply Forall_fmap, Forall_forall. intros i _. simpl.
    apply length_replicate. }
  assert (HlenIs : length Is = length Js).
  { unfold Is. by rewrite length_map, length_seq. }
  unfold flatten, size2, coo_toarray.
  rewrite decide_True.
  2:{ rewrite !(length_concat_const k) by done. rewrite length_replicate.
      repeat split; [by rewrite HlenIs| |by apply Forall_concat].
      apply Forall_concat. unfold Is. apply Forall_fmap, Forall_forall.
      intros i Hi. apply elem_of_seq in Hi. simpl.
      apply Forall_replicate. lia. }
  f_equal.
  rewrite zip_replicate_l.
  2:{ apply length_zip_with_l_eq.
      rewrite !(length_concat_const k) by done. lia. }
  unfold Is. rewrite (zip_rows_cols k Js 0 HJk).
  pose proof (foldl_add_at_rows M Js []) as Hfold. simpl in Hfold.
  rewrite Hfold. unfold Js. by rewrite map_map.
Qed.

(** The claim's count: for a float [Kappa] below 1, [np.round] of the
    float64 product [v]; for an int [Kappa] of at least 1, [Kappa]. *)
Lemma NNeighbs_fraction (q v : Q) (M : nat) :
  (q < 1)%Q →
  mul64 (Fin q) (Fin (inject_Z (Z.of_nat M))) = Fin v →
  NNeighbs (PyFloat q) M = Some (PyInt (np_round v)).
Proof.
  intros Hq Hv. unfold NNeighbs. cbn [num_val].
  destruct (Qlt_le_dec q 1) as [_|Hge]; [|by apply Qle_not_lt in Hge].
  by rewrite Hv.
Qed.

(** Counts the code computes: 0.3*5 is the float64 1.5 and rounds to 2,
    0.1*5 is 0.5 and rounds to 0, 0.9*5 is 4.5 and rounds to 4, 0.95*10 is
    9.5 and rounds to 10. *)
Lemma NNeighbs_float_products :
  NNeighbs (PyFloat (lit_val (3 # 10))) 5 = Some (PyInt 2) ∧
  NNeighbs (PyFloat (lit_val (1 # 10))) 5 = Some (PyInt 0) ∧
  NNeighbs (PyFloat (lit_val (9 # 10))) 5 = Some (PyInt 4) ∧
  NNeighbs (PyFloat (lit_val (95 # 100))) 10 = Some (PyInt 10).
Proof. vm_compute. repeat split; reflexivity. Qed.

Lemma NNeighbs_count (z : Z) (M : nat) :
  1 ≤ z → NNeighbs (PyInt z) M = Some (PyInt z).
Proof.
  intros Hz. unfold NNeighbs. simpl.
  destruct (Qlt_le_dec (inject_Z z) 1) as [Hlt|_]; [|done].
  change 1%Q with (inject_Z 1) in Hlt. rewrite <- Zlt_Qlt in Hlt. lia.
Qed.

(** C6.  For an N×M matrix [D] and a [Kappa] (not 0) that yields the
    neighbour count [k] with 0 < k < M ([np.round] of the float64 product
    [Kappa*M] for a float [Kappa] below 1, [Kappa] itself for an int of at
    least 1), whenever [np.argpartition] keeps its
    contract on the rows of [D], [CSMToBinary] returns an N×M binary matrix
    whose row [i] has exactly [k] entries equal to 1, placed at the first
    [k] columns of that row's partition; every column holding a 1 has a
    value of [D] in row [i] at most that of every column holding a 0. *)
Theorem CSMToBinary_nearest_neighbours (N M : nat) (D : matrix Q)
    (Kappa : pynum) (k : nat) :
  is_matrix N M D →
  ¬ (num_val Kappa == 0)%Q →
  NNeighbs Kappa M = Some (PyInt (Z.of_nat k)) →
  (0 < k < M)%nat →
  Forall (λ row, is_argpartition row k (argpartition row k) = true) D →
  ∃ B, CSMToBinary argpartition D Kappa = Some B ∧
       is_matrix N M B ∧ binary_matrix B ∧
       ∀ i rowD rowB, D !! i = Some rowD → B !! i = Some rowB →
         length (filter (λ v, v = 1) rowB) = k ∧
         (∀ j, rowB !! j = Some 1 ↔ j ∈ take k (argpartition rowD k)) ∧
         (∀ j j', rowB !! j = Some 1 → rowB !! j' = Some 0 →
                  (rowVal rowD j <= rowVal rowD j')%Q).
Proof.
  intros HM HK HNN [Hk0 HkM] Harg.
  exists (map (λ row, rowOnes M (take k (argpartition row k))) D).
  split; [by apply CSMToBinary_rows with N|].
  assert (Hrow : ∀ i rowD, D !! i = Some rowD →
            length rowD = M ∧
            is_argpartition rowD k (argpartition rowD k) = true).
  { intros i rowD Hi. split; [by eapply is_matrix_lookup|].
    rewrite Forall_forall in Harg. apply Harg.
    by eapply list_elem_of_lookup_2. }
  assert (Hnd : ∀ i rowD, D !! i = Some rowD →
            NoDup (take k (argpartition rowD k))).
  { intros i rowD Hi. destruct (Hrow i rowD Hi) as [_ Ha].
    eapply sublist_NoDup; [exact (argpartition_NoDup _ _ _ Ha)|].
    apply sublist_take. }
  split; [|split].
  - split; [rewrite length_map; apply HM|].
    apply Forall_fmap, Forall_forall. intros row _. simpl.
    unfold rowOnes. by rewrite length_foldl_alter, length_replicate.
  - apply Forall_fmap, Forall_lookup. intros i rowD Hi. simpl.
    apply binary_rowOnes. by eapply Hnd.
  - intros i rowD rowB Hi HB.
    rewrite list_lookup_fmap, Hi in HB. injection HB as <-.
    destruct (Hrow i rowD Hi) as [Hlen Ha].
    pose proof (Hnd i rowD Hi) as Hnd'.
    set (js := take k (argpartition rowD k)) in *.
    assert (HjsM : ∀ j, j ∈ js → (j < M)%nat).
    { intros j Hj. apply subseteq_take in Hj.
      apply (argpartition_elem _ _ _ Ha) in Hj. lia. }
    assert (Hone : ∀ j, rowOnes M js !! j = Some 1 ↔ j ∈ js).
    { intros j. rewrite lookup_rowOnes by done.
      destruct (decide (j < M)%nat) as [Hj|Hj].
      - destruct (decide (j ∈ js)); split; try done.
      - split; [done|]. intros Hin. apply HjsM in Hin. lia. }
    split; [|split; [exact Hone|]].
    + rewrite count_ones_rowOnes; [|done|by apply Forall_forall].
      unfold js. rewrite length_take_le; [done|].
      rewrite (argpartition_length _ _ _ Ha). lia.
    + intros j j' H1 H0. apply Hone in H1.
      rewrite lookup_rowOnes in H0 by done.
      destruct (decide (j' < M)%nat) as [Hj'|]; [|done].
      destruct (decide (j' ∈ js)) as [|Hnot]; [done|].
      apply (argpartition_smallest _ _ _ Ha); [done|lia|done].
Qed.

End KNNFacts.

(** The float 0.3 and five columns: the float64 product is 1.5 and the
    count is 2. *)
Lemma CSMToBinary_nearest_neighbours_witness :
  ∃ B, CSMToBinary argsort [[3; 1; 2; 5; 4]; [0; 4; 1; 1; 2]]%Q
         (PyFloat (lit_val (3 # 10))) = Some B ∧
       is_matrix 2 5 B ∧ binary_matrix B ∧
       ∀ rowB, B !! 0%nat = Some rowB →
               length (filter (λ v, v = 1) rowB) = 2%nat.
Proof.
  destruct (CSMToBinary_nearest_neighbours argsort 2 5
              [[3; 1; 2; 5; 4]; [0; 4; 1; 1; 2]]%Q
              (PyFloat (lit_val (3 # 10))) 2) as (B & HB & HM & Hb & Hrows).
  - split; [reflexivity|repeat constructor].
  - intros H. vm_compute in H. discriminate H.
  - vm_compute. reflexivity.
  - lia.
  - repeat constructor.
  - exists B. split; [exact HB|]. split; [exact HM|]. split; [exact Hb|].
    intros rowB HrowB.
    exact (proj1 (Hrows 0%nat [3; 1; 2; 5; 4]%Q rowB eq_refl HrowB)).
Defined.

Section Float64Facts.

Variable sum64 : list f64 → f64.
Variable dot64 : list f64 → list f64 → f64.

Implicit Types (x y : list f64) (X Y : list (list f64)) (c e : f64).

Lemma entry_of_getCSM_float64 X Y i j :
  entry_of (getCSM_float64 sum64 dot64 X Y) i j =
  x ← X !! i; y ← Y !! j;
  Some (sqrt64 (clamp64 (expansion64 sum64 dot64 x y))).
Proof.
  unfold entry_of, getCSM_float64. rewrite !list_lookup_fmap.
  destruct (X !! i) as [x|]; simpl; [|done].
  rewrite !list_lookup_fmap. by destruct (Y !! j).
Qed.

Lemma is_matrix_getCSM_float64 X Y :
  is_matrix (length X) (length Y) (getCSM_float64 sum64 dot64 X Y).
Proof.
  unfold getCSM_float64. split; [by rewrite !length_map|].
  do 3 apply Forall_fmap. apply Forall_forall. intros x _. simpl.
  by rewrite !length_map.
Qed.

(** What the clamp and the square root make of a value [c]. *)
Lemma sqrt64_clamp64 c :
  (c = NaN → sqrt64 (clamp64 c) = NaN) ∧
  (c ≠ NaN → nonneg64 (sqrt64 (clamp64 c))) ∧
  (lt64 c (Fin 0) = true → sqrt64 (clamp64 c) = Fin 0).
Proof.
  unfold clamp64. split; [by intros ->|]. split.
  - intros Hc. destruct (lt64 c (Fin 0)) eqn:E; [simpl; lra|].
    apply sqrt64_nonneg. destruct c as [q|s|]; simpl in *; [|by destruct s|done].
    destruct (Qle_bool 0 q) eqn:E2; [by apply Qle_bool_iff|done].
  - by intros ->.
Qed.

Lemma sub64_self (r : Q) : sub64 (Fin r) (Fin r) = Fin 0.
Proof. unfold sub64. simpl. apply f64_round_zero. ring. Qed.

Lemma expansion64_self x (s t : Q) :
  sqnorm64 sum64 x = Fin s → dot64 x x = Fin s →
  add64 (Fin s) (Fin s) = Fin t →
  expansion64 sum64 dot64 x x = Fin 0.
Proof.
  intros Hs Hd Ht. unfold expansion64. rewrite Hs, Hd, Ht.
  assert (H2 : mul64 (Fin 2) (Fin s) = Fin t).
  { rewrite <- Ht. simpl. apply f64_round_compat. ring. }
  rewrite H2. apply sub64_self.
Qed.

End Float64Facts.

(** C8, as the code behaves on float64 arrays.  For an M×d array [X] and
    an N×d array [Y], whatever the order in which [np.sum] and the matrix
    product round: [getCSM] returns an M×N array; an entry is NaN when the
    expansion ‖x‖² + ‖y‖² − 2x·y is NaN (an overflow or a NaN in the input),
    is never negative otherwise, and is 0 when the expansion is negative
    (the clamp).  The diagonal entry of [getCSM X X] in row [i] is 0 when
    the matrix product returns for x·x the very float64 that [np.sum]
    returns for ‖x‖² and twice that number is finite. *)
Theorem getCSM_float64_clamped_entries
    (sum64 : list f64 → f64) (dot64 : list f64 → list f64 → f64)
    (M N d : nat) (X Y : matrix f64) :
  is_matrix M d X → is_matrix N d Y →
  is_matrix M N (getCSM_float64 sum64 dot64 X Y) ∧
  (∀ i j x y, X !! i = Some x → Y !! j = Some y →
     ∃ e, entry_of (getCSM_float64 sum64 dot64 X Y) i j = Some e ∧
          (expansion64 sum64 dot64 x y = NaN → e = NaN) ∧
          (expansion64 sum64 dot64 x y ≠ NaN → nonneg64 e) ∧
          (lt64 (expansion64 sum64 dot64 x y) (Fin 0) = true → e = Fin 0)) ∧
  (∀ i x s t, X !! i = Some x →
     sqnorm64 sum64 x = Fin s → dot64 x x = Fin s →
     add64 (Fin s) (Fin s) = Fin t →
     entry_of (getCSM_float64 sum64 dot64 X X) i i = Some (Fin 0)).
Proof.
  intros HX HY. split; [|split].
  - pose proof (is_matrix_getCSM_float64 sum64 dot64 X Y) as H.
    by rewrite (proj1 HX), (proj1 HY) in H.
  - intros i j x y Hx Hy. eexists. split.
    + rewrite entry_of_getCSM_float64, Hx. simpl. rewrite Hy. reflexivity.
    + apply sqrt64_clamp64.
  - intros i x s t Hx Hs Hd Ht.
    rewrite entry_of_getCSM_float64, Hx. simpl.
    by rewrite (expansion64_self sum64 dot64 x s t Hs Hd Ht).
Qed.

(** With sums and products rounded one by one the diagonal entry of the
    third point is 0; with a fused product the expansion of (0.4, 0.7) with
    itself is negative, and the clamp makes the entry 0. *)
Lemma getCSM_float64_clamped_entries_witness :
  entry_of (getCSM_float64 sum_seq dot_plain threePoints threePoints) 2 2
    = Some (Fin 0) ∧
  lt64 (expansion64 sum_seq dot_fma (map lit [4 # 10; 7 # 10]%Q)
          (map lit [4 # 10; 7 # 10]%Q)) (Fin 0) = true ∧
  entry_of (getCSM_float64 sum_seq dot_fma onePoint onePoint) 0 0
    = Some (Fin 0).
Proof.
  assert (H3 : is_matrix 3 2 threePoints)
    by (split; [reflexivity|repeat constructor]).
  assert (H1 : is_matrix 1 2 onePoint)
    by (split; [reflexivity|repeat constructor]).
  split; [|split].
  - apply (proj2 (proj2 (getCSM_float64_clamped_entries sum_seq dot_plain
                           3 3 2 threePoints threePoints H3 H3))
             2%nat (map lit [1 # 10; 4 # 10]%Q)
             (1531223873305969 # 9007199254740992)%Q
             (1531223873305969 # 4503599627370496)%Q);
      vm_compute; reflexivity.
  - vm_compute. reflexivity.
  - destruct (proj1 (proj2 (getCSM_float64_clamped_entries sum_seq dot_fma
                              1 1 2 onePoint onePoint H1 H1))
                0%nat 0%nat (map lit [4 # 10; 7 # 10]%Q)
                (map lit [4 # 10; 7 # 10]%Q) eq_refl eq_refl)
      as (e & He & _ & _ & Hneg).
    rewrite He. f_equal. apply Hneg. vm_compute. reflexivity.
Defined.

(** C8 as stated fails.  When the matrix product accumulates with fused
    multiply-adds, the diagonal entry of the point (0.1, 0.4) is 2^-27
    (about 7.45e-09), not 0: [np.sum] gives 0.17000000000000004 for the
    squared norm, the product 0.17.  And for the point (1e200) the squares
    overflow, the expansion is inf - inf, and the entry is NaN, which is
    neither 0 nor non-negative. *)
Lemma getCSM_float64_diagonal_not_zero :
  entry_of (getCSM_float64 sum_seq dot_fma threePoints threePoints) 2 2
    = Some (Fin (1 # 134217728)) ∧
  entry_of (getCSM_float64 sum_seq dot_fma threePoints threePoints) 2 2
    ≠ Some (Fin 0) ∧
  entry_of (getCSM_float64 sum_seq dot_plain farPoint farPoint) 0 0
    = Some NaN.
Proof.
  assert (H : entry_of (getCSM_float64 sum_seq dot_fma threePoints threePoints)
                2 2 = Some (Fin (1 # 134217728)))
    by (vm_compute; reflexivity).
  split; [exact H|]. split.
  - rewrite H. discriminate.
  - vm_compute. reflexivity.
Qed.

Local Open Scope R_scope.

Section CSMFacts.

Implicit Types (x y : list R) (X Y : list (list R)).

Lemma clamp_Rmax c : clamp c = Rmax 0 c.
Proof.
  unfold clamp, Rmax. destruct (Rlt_dec c 0), (Rle_dec 0 c); lra.
Qed.

Lemma clamp_nonneg c : 0 <= clamp c.
Proof. unfold clamp. destruct (Rlt_dec c 0); lra. Qed.

Lemma dot_self x : dot x x = sqnorm x.
Proof.
  unfold dot, sqnorm. induction x as [|v x IH]; simpl; [done|].
  rewrite IH. simpl. lra.
Qed.

Lemma getCSM_entries X Y : getCSM X Y = map (λ x, map (csmEntry x) Y) X.
Proof.
  unfold getCSM. rewrite !map_map. apply map_ext. intros x.
  rewrite !map_map. apply map_ext. intros y.
  unfold csmEntry. by rewrite clamp_Rmax.
Qed.

Lemma csmEntry_nonneg x y : 0 <= csmEntry x y.
Proof. apply sqrt_pos. Qed.

Lemma csmEntry_self x : csmEntry x x = 0.
Proof.
  unfold csmEntry. rewrite dot_self.
  replace (sqnorm x + sqnorm x - 2 * sqnorm x) with 0 by lra.
  rewrite Rmax_left by lra. apply sqrt_0.
Qed.

End CSMFacts.

Section PersistenceFacts.

Variable getTimeDerivative : matrix R → Z → matrix R.
Variable pca_fit_transform : matrix R → matrix R.
Variable estimateFundamentalFreq : list R → bool → R * R.
Variable getSlidingWindowVideo : matrix R → Z → R → R → matrix R.
Variable exn : Type.
Variable doRipsFiltrationDM : matrix R → Z → Z → exn + list (list (R * R)).

(** C4, as the code behaves.  If the homology routine raises on the
    self-similarity matrix, [getPersistencesBlock] still returns: the result
    holds that matrix, the score 0 and the initial one-row array [[0, 0]]
    as its features, and "EXCEPTION" has been printed. *)
Theorem getPersistencesBlock_on_failure (XP : matrix R) (dim : Z)
    (estimateFreq : bool) (derivWin : Z) (e : exn) :
  let XS := getSlidingWindow getTimeDerivative pca_fit_transform
              estimateFundamentalFreq getSlidingWindowVideo
              XP dim estimateFreq derivWin in
  doRipsFiltrationDM (getCSM XS XS) 1 41 = inl e →
  getPersistencesBlock getTimeDerivative pca_fit_transform
    estimateFundamentalFreq getSlidingWindowVideo exn doRipsFiltrationDM
    XP dim estimateFreq derivWin =
  ({| res_D := getCSM XS XS; res_P := 0; res_I := [(0, 0)] |},
   ["EXCEPTION"%string]).
Proof.
  intros XS He. unfold getPersistencesBlock. fold XS. by rewrite He.
Qed.

End PersistenceFacts.

Lemma getPersistencesBlock_on_failure_witness :
  res_I (getPersistencesBlock (λ X _, X) (λ X, X) (λ _ _, (1, 1))
           (λ X _ _ _, X) unit (λ _ _ _, inl tt) [[1; 2]] 5 false (-1)).1
  = [(0, 0)].
Proof.
  rewrite (getPersistencesBlock_on_failure (λ X _, X) (λ X, X) (λ _ _, (1, 1))
             (λ X _ _ _, X) unit (λ _ _ _, inl tt) [[1; 2]] 5 false (-1) tt
             eq_refl).
  reflexivity.
Defined.

(** After a failure of the homology routine the feature list is not
    empty. *)
Lemma getPersistencesBlock_failure_keeps_placeholder :
  res_I (getPersistencesBlock (λ X _, X) (λ X, X) (λ _ _, (1, 1))
           (λ X _ _ _, X) unit (λ _ _ _, inl tt) [[1; 2]] 5 false (-1)).1
  ≠ [].
Proof. discriminate. Qed.

(** * Further properties of the run scanner and of the run distributions *)

Local Close Scope R_scope.

Section MoreScannerFacts.

Implicit Types (x y : list Z) (s : scanner).

Lemma scan_filter_binary x : ∀ s,
  scan s (filter (λ v, v = 0 ∨ v = 1) x) = scan s x.
Proof.
  induction x as [|v x IH]; intros s; [done|].
  destruct (decide (v = 0 ∨ v = 1)) as [Hv|Hv].
  - rewrite filter_cons_True by done. simpl. apply IH.
  - rewrite filter_cons_False by done. simpl. rewrite IH. f_equal.
    unfold scan_step.
    assert ((v =? 0) = false) as -> by (apply Z.eqb_neq; tauto).
    assert ((v =? 1) = false) as -> by (apply Z.eqb_neq; tauto).
    by destruct (state s).
Qed.

(** After a sequence of zero-terminated pieces the scanner is outside a
    run. *)
Lemma scan_closed_state (rows : list (list Z)) :
  state (scan scan_init (concat (map (λ r, r ++ [0]) rows))) = IN_ZEROS.
Proof.
  induction rows as [|r rows _] using rev_ind; [done|].
  rewrite map_app, concat_app. simpl. rewrite app_nil_r, app_assoc.
  rewrite scan_snoc. apply scan_step_zero_state.
Qed.

Lemma binary_closed_rows (rows : list (list Z)) :
  binary_matrix rows → binary (concat (map (λ r, r ++ [0]) rows)).
Proof.
  intros HB. apply Forall_concat, Forall_fmap.
  eapply Forall_impl; [exact HB|]. intros r Hr. simpl.
  apply Forall_app. split; [done|]. by repeat constructor.
Qed.

Lemma sumZ_closed_rows (rows : list (list Z)) :
  sumZ (concat (map (λ r, r ++ [0]) rows)) = sumZ (concat rows).
Proof.
  induction rows as [|r rows IH]; [done|].
  simpl. rewrite !sumZ_app, IH. simpl. lia.
Qed.

(** Zero-terminated binary pieces: every 1 lies in one recorded run. *)
Lemma sumLengths_closed_rows (rows : list (list Z)) :
  binary_matrix rows →
  sumLengths (getContinuousRuns (concat (map (λ r, r ++ [0]) rows))) =
  sumZ (concat rows).
Proof.
  intros HB.
  pose proof (scan_counts_ones _ (binary_closed_rows rows HB)) as H.
  cbv zeta in H. rewrite scan_closed_state, sumZ_closed_rows in H.
  unfold getContinuousRuns. lia.
Qed.

Lemma mergeAll_snoc_empty (ms : list (gmap Z Z)) : mergeAll (ms ++ [∅]) = mergeAll ms.
Proof.
  induction ms as [|m ms IH]; simpl; [apply mergeRuns_empty_r|by rewrite IH].
Qed.

Lemma sumLengths_from_all lo (m : gmap Z Z) :
  runs_pos m → lo ≤ 1 → sumLengths_from lo m = sumLengths m.
Proof.
  intros Hm Hlo. unfold sumLengths_from, sumLengths, items_from.
  f_equal. f_equal.
  assert (HF : Forall (λ cn : Z * Z, lo ≤ cn.1) (map_to_list m)).
  { apply Forall_forall. intros [c n] Hin. apply elem_of_map_to_list in Hin.
    apply Hm in Hin. simpl. lia. }
  induction HF as [|cn l Hcn _ IH]; [done|].
  rewrite filter_cons_True by done. by rewrite IH.
Qed.

(** [getRQAVerts] scans every row of the matrix, closed by a 0, on its
    own. *)
Lemma getRQAVerts_closed_rows (N : nat) (Rm : list (list Z)) :
  is_matrix N N Rm →
  getRQAVerts Rm = mergeAll (map (λ row, getContinuousRuns (row ++ [0])) Rm).
Proof.
  intros HM. unfold getRQAVerts, flatten.
  rewrite (padded_rows N Rm HM), getContinuousRuns_concat, map_app. simpl.
  rewrite (getContinuousRuns_all_zero (replicate N 0 ++ [0])).
  - apply mergeAll_snoc_empty.
  - apply Forall_app. split; [by apply Forall_replicate|by repeat constructor].
Qed.

(** [getRQADiags] scans every upper diagonal, closed by a 0, on its own. *)
Lemma getRQADiags_closed_diagonals (Rm : list (list Z)) :
  getRQADiags Rm =
  mergeAll (map (λ i, getContinuousRuns (diagonal Rm i ++ [0]))
                (seq 1 (shape1 Rm - 1))).
Proof.
  unfold getRQADiags. rewrite diagSequence_concat.
  rewrite <- (map_map (diagonal Rm) (λ r, r ++ [0])).
  by rewrite getContinuousRuns_concat, map_map.
Qed.

End MoreScannerFacts.

(** X1.  Every length recorded by [getContinuousRuns] is at least 1 and is
    recorded at least once; the dictionary never has the key 0. *)
Theorem getContinuousRuns_lengths_positive (x : list Z) :
  map_Forall (λ c n, 1 ≤ c ∧ 1 ≤ n) (getContinuousRuns x) ∧
  getContinuousRuns x !! 0 = None.
Proof.
  pose proof (getContinuousRuns_pos x) as Hpos. split.
  - intros c n Hc. apply Hpos in Hc. lia.
  - destruct (getContinuousRuns x !! 0) as [n|] eqn:E; [|done].
    apply Hpos in E. lia.
Qed.

(** X2.  Entries other than 0 and 1 are skipped by [getContinuousRuns]: they
    neither extend nor close a run, so the result is that of the sequence
    with those entries removed. *)
Theorem getContinuousRuns_skips_other_values (x : list Z) :
  getContinuousRuns x = getContinuousRuns (filter (λ v, v = 0 ∨ v = 1) x).
Proof. unfold getContinuousRuns. by rewrite scan_filter_binary. Qed.

(** X3.  A 0 separates the scan: the distribution of [x ++ 0 :: y] is the sum,
    length by length, of the distributions of [x ++ [0]] and of [y]; hence
    a concatenation of pieces each closed by a 0 gives the sum of the
    distributions of the pieces. *)
Theorem getContinuousRuns_zero_separates (x y : list Z)
    (rows : list (list Z)) :
  getContinuousRuns (x ++ 0 :: y) =
    mergeRuns (getContinuousRuns (x ++ [0])) (getContinuousRuns y) ∧
  getContinuousRuns (concat (map (λ r, r ++ [0]) rows)) =
    mergeAll (map (λ r, getContinuousRuns (r ++ [0])) rows).
Proof.
  split; [apply getContinuousRuns_split|apply getContinuousRuns_concat].
Qed.

(** X4.  On a sequence of 0s and 1s the recorded runs account for every 1 but
    those of a last run left open: the lengths weighted by their counts add
    up to the number of 1s minus the length of the final block of 1s, and
    to the number of 1s once the sequence is closed by a 0. *)
Theorem getContinuousRuns_counts_ones (x : list Z) :
  binary x →
  sumLengths (getContinuousRuns x) = sumZ x - trailing_ones x ∧
  sumLengths (getContinuousRuns (x ++ [0])) = sumZ x.
Proof.
  intros Hb.
  assert (H : ∀ y, binary y →
            sumLengths (getContinuousRuns y) = sumZ y - trailing_ones y).
  { intros y Hy. pose proof (scan_counts_ones y Hy) as Hc. cbv zeta in Hc.
    unfold getContinuousRuns.
    destruct (scan_state_binary y Hy) as [(Hs & _ & Ht)|(Hs & _ & Ht)];
      rewrite Hs in Hc; lia. }
  split; [by apply H|].
  rewrite H.
  - rewrite trailing_ones_snoc, sumZ_app. simpl. lia.
  - apply Forall_app. split; [done|]. by repeat constructor.
Qed.

Lemma getContinuousRuns_counts_ones_witness :
  sumLengths (getContinuousRuns ([1; 1; 0; 1] ++ [0])) = sumZ [1; 1; 0; 1].
Proof.
  assert (Hb : binary [1; 1; 0; 1]) by (repeat constructor; lia).
  exact (proj2 (getContinuousRuns_counts_ones [1; 1; 0; 1] Hb)).
Defined.

(** X5.  On an N×N array [getRQAVerts] returns the sum, length by length, of
    the run distributions of the rows, each closed by the padding zero;
    when the array is symmetric this is the distribution of the vertical
    (column) runs. *)
Theorem getRQAVerts_row_runs (N : nat) (Rm : matrix Z) :
  is_matrix N N Rm →
  getRQAVerts Rm = mergeAll (map (λ row, getContinuousRuns (row ++ [0])) Rm) ∧
  ((∀ i j, entry Rm i j = entry Rm j i) →
   getRQAVerts Rm = vertsPerColumn Rm).
Proof.
  intros HM. split.
  - by apply (getRQAVerts_closed_rows N).
  - by apply (getRQAVerts_symmetric N).
Qed.

Lemma getRQAVerts_row_runs_witness :
  getRQAVerts [[1; 1]; [0; 0]] =
  mergeAll (map (λ row, getContinuousRuns (row ++ [0])) [[1; 1]; [0; 0]]).
Proof.
  assert (HM : is_matrix 2 2 [[1; 1]; [0; 0]])
    by (split; [reflexivity|repeat constructor]).
  exact (proj1 (getRQAVerts_row_runs 2 _ HM)).
Defined.

(** X6.  On a binary N×N array the lengths returned by [getRQAVerts], weighted
    by their counts, add up to the number of 1s of the array: the zero
    padding closes every run, none is lost and none joins the next row. *)
Theorem getRQAVerts_counts_ones (N : nat) (Rm : matrix Z) :
  is_matrix N N Rm → binary_matrix Rm →
  sumLengths (getRQAVerts Rm) =
  Z.of_nat (length (filter (λ v, v = 1) (flatten Rm))).
Proof.
  intros HM HB. unfold getRQAVerts, flatten.
  rewrite (padded_rows N Rm HM), sumLengths_closed_rows.
  - rewrite concat_app, sumZ_app. simpl. rewrite app_nil_r.
    rewrite sumZ_replicate_zero, Z.add_0_r.
    symmetry. apply count_ones_binary. by apply Forall_concat.
  - apply Forall_app. split; [done|]. repeat constructor.
    apply Forall_replicate. by left.
Qed.

Lemma getRQAVerts_counts_ones_witness :
  sumLengths (getRQAVerts [[0; 1; 1]; [1; 0; 1]; [1; 1; 0]]) =
  Z.of_nat (length (filter (λ v, v = 1)
                      (flatten [[0; 1; 1]; [1; 0; 1]; [1; 1; 0]]))).
Proof.
  apply (getRQAVerts_counts_ones 3).
  - split; [reflexivity|repeat constructor].
  - repeat constructor; lia.
Defined.

(** X7.  On an N×M array with at least one row, [getRQADiags] is the sum,
    length by length, of the run distributions of the superdiagonals
    1, ..., M-1, each scanned on its own and closed by a 0; superdiagonal
    [i] has min(N, M - i) entries. *)
Theorem getRQADiags_per_diagonal (N M : nat) (Rm : matrix Z) :
  is_matrix N M Rm → (1 ≤ N)%nat →
  getRQADiags Rm =
  mergeAll (map (λ i, getContinuousRuns (diagonal Rm i ++ [0])) (seq 1 (M - 1))) ∧
  ∀ i, length (diagonal Rm i) = (N `min` (M - i))%nat.
Proof.
  intros HM HN.
  assert (H1 : shape1 Rm = M).
  { destruct HM as [HL HF]. unfold shape1.
    destruct Rm as [|row Rm]; simpl in *; [lia|]. by apply Forall_inv in HF. }
  split.
  - rewrite getRQADiags_closed_diagonals. by rewrite H1.
  - intros i. unfold diagonal. rewrite length_map, length_seq, H1.
    unfold shape0. by rewrite (proj1 HM).
Qed.

Lemma getRQADiags_per_diagonal_witness :
  getRQADiags [[0; 1; 1]; [0; 0; 1]] =
  mergeAll (map (λ i, getContinuousRuns
                        (diagonal [[0; 1; 1]; [0; 0; 1]] i ++ [0]))
                (seq 1 2)).
Proof.
  assert (HM : is_matrix 2 3 [[0; 1; 1]; [0; 0; 1]])
    by (split; [reflexivity|repeat constructor]).
  exact (proj1 (getRQADiags_per_diagonal 2 3 _ HM ltac:(lia))).
Defined.

(** X8.  [getRQADiags] reads only the entries strictly above the main
    diagonal: two N×N arrays that agree there have the same distribution. *)
Theorem getRQADiags_upper_triangle_only (N : nat) (A B : matrix Z) :
  is_matrix N N A → is_matrix N N B →
  (∀ r c, (r < c)%nat → entry A r c = entry B r c) →
  getRQADiags A = getRQADiags B.
Proof.
  intros HA HB Heq. unfold getRQADiags. f_equal.
  rewrite !diagSequence_concat.
  rewrite (shape1_is_matrix N A HA), (shape1_is_matrix N B HB).
  f_equal. apply map_ext_in. intros i Hi. apply in_seq in Hi. f_equal.
  unfold diagonal, shape0.
  rewrite (shape1_is_matrix N A HA), (shape1_is_matrix N B HB).
  rewrite (proj1 HA), (proj1 HB).
  apply map_ext. intros r. apply Heq. lia.
Qed.

Lemma getRQADiags_upper_triangle_only_witness :
  getRQADiags [[1; 1]; [1; 1]] = getRQADiags [[0; 1]; [0; 0]].
Proof.
  apply (getRQADiags_upper_triangle_only 2).
  - split; [reflexivity|repeat constructor].
  - split; [reflexivity|repeat constructor].
  - intros [|[|r]] [|[|[|c]]] H; try lia; reflexivity.
Defined.

Section StatsFacts.

Implicit Types (m : gmap Z Z) (Rm : list (list Z)).

Lemma binary_diagonals Rm (l : list nat) :
  binary_matrix Rm → binary_matrix (map (diagonal Rm) l).
Proof.
  intros HB. apply Forall_fmap, Forall_forall. intros i _. simpl.
  unfold diagonal. apply Forall_fmap, Forall_forall. intros r _.
  by apply entry_binary.
Qed.

(** Every 1 above the main diagonal lies in one recorded diagonal run. *)
Lemma sumLengths_getRQADiags N Rm :
  is_matrix N N Rm → binary_matrix Rm →
  sumLengths (getRQADiags Rm) = upperOnes Rm.
Proof.
  intros HM HB.
  pose proof (sumZ_diagSequence N Rm HM) as Hsum.
  pose proof (sumZ_upper N Rm HM) as Hup. cbv zeta in Hup.
  unfold upperOnes, shape0. rewrite (proj1 HM), Hup.
  rewrite <- diagSum_upperSum, <- Hsum.
  unfold getRQADiags. rewrite diagSequence_concat.
  rewrite <- (map_map (diagonal Rm) (λ r, r ++ [0])).
  rewrite sumLengths_closed_rows by (by apply binary_diagonals).
  by rewrite sumZ_closed_rows.
Qed.

Lemma guarded_ratio_self (a : Z) :
  (inject_Z a / zeroDenom (inject_Z a) ==
   if decide (a = 0%Z) then 0 else 1)%Q.
Proof.
  rewrite zeroDenom_inject_Z. destruct (decide (a = 0)) as [->|Ha].
  - reflexivity.
  - apply Qmult_inv_r. intros H. apply Ha.
    unfold Qeq in H. simpl in H. lia.
Qed.

(** Bounds of a weighted sum by the least and the largest weight. *)
Lemma weighted_sum_bounds (lo hi : Z) (l : list (Z * Z)) :
  Forall (λ cn, lo ≤ cn.1 ≤ hi ∧ 0 < cn.2) l →
  lo * sumZ (map snd l) ≤ sumZ (map (λ cn, cn.1 * cn.2) l) ∧
  sumZ (map (λ cn, cn.1 * cn.2) l) ≤ hi * sumZ (map snd l).
Proof.
  induction 1 as [|[c n] l [Hc Hn] _ IH]; simpl in *; [lia|]. nia.
Qed.

Lemma np_max_ge (l : list Z) c : c ∈ l → c ≤ np_max l.
Proof.
  assert (Hfold : ∀ t a, a ≤ foldl Z.max a t ∧ ∀ b, b ∈ t → b ≤ foldl Z.max a t).
  { induction t as [|b t IH]; intros a; simpl.
    - split; [lia|]. intros b Hb. by apply elem_of_nil in Hb.
    - destruct (IH (a `max` b)) as [H1 H2]. split; [lia|].
      intros b' Hb'. apply elem_of_cons in Hb' as [->|Hb']; [lia|by apply H2]. }
  destruct l as [|a t]; intros Hc; [by apply elem_of_nil in Hc|].
  simpl. destruct (Hfold t a) as [H1 H2].
  apply elem_of_cons in Hc as [->|Hc]; [done|by apply H2].
Qed.

Lemma np_max_le (l : list Z) (B : Z) :
  0 ≤ B → Forall (λ c, c ≤ B) l → np_max l ≤ B.
Proof.
  intros HB HF. destruct HF as [|a t Ha Ht]; [done|]. simpl.
  revert a Ha. induction Ht as [|b t Hb _ IH]; intros a Ha; simpl; [done|].
  apply IH. lia.
Qed.

Lemma longest_ge m c n : m !! c = Some n → c ≤ longest m.
Proof.
  intros Hc. unfold longest. rewrite decide_True.
  - apply np_max_ge. apply list_elem_of_fmap. exists (c, n).
    split; [done|]. by apply elem_of_map_to_list.
  - assert (size m ≠ 0%nat); [|lia].
    apply map_size_non_empty_iff. intros ->. by rewrite lookup_empty in Hc.
Qed.

Lemma longest_le m (B : Z) :
  0 ≤ B → map_Forall (λ c _, c ≤ B) m → longest m ≤ B.
Proof.
  intros HB Hm. unfold longest. case_decide; [|done].
  apply np_max_le; [done|]. apply Forall_fmap, Forall_forall.
  intros [c n] Hin. apply elem_of_map_to_list in Hin. simpl.
  by apply (Hm c n).
Qed.

(** The mean of the run lengths from [lo] on lies between [lo] and the
    longest run. *)
Lemma mean_length_bounds lo m :
  runs_pos m → 0 < sumCounts_from lo m →
  (inject_Z lo <= inject_Z (sumLengths_from lo m)
                  / zeroDenom (inject_Z (sumCounts_from lo m)))%Q ∧
  (inject_Z (sumLengths_from lo m)
     / zeroDenom (inject_Z (sumCounts_from lo m)) <= inject_Z (longest m))%Q.
Proof.
  intros Hm Hpos. rewrite zeroDenom_inject_Z, decide_False by lia.
  assert (HF : Forall (λ cn : Z * Z, lo ≤ cn.1 ≤ longest m ∧ 0 < cn.2)
                 (items_from lo m)).
  { apply Forall_forall. intros [c n] Hin. unfold items_from in Hin.
    apply list_elem_of_filter in Hin as [Hlo Hin].
    apply elem_of_map_to_list in Hin. simpl in *.
    pose proof (longest_ge m c n Hin). apply Hm in Hin. lia. }
  destruct (weighted_sum_bounds _ _ _ HF) as [H1 H2].
  fold (sumCounts_from lo m) in H1, H2. fold (sumLengths_from lo m) in H1, H2.
  assert (HposQ : (0 < inject_Z (sumCounts_from lo m))%Q).
  { change 0%Q with (inject_Z 0). by rewrite <- Zlt_Qlt. }
  split.
  - apply Qle_shift_div_l; [done|].
    rewrite <- inject_Z_mult, <- Zle_Qle. lia.
  - apply Qle_shift_div_r; [done|].
    rewrite <- inject_Z_mult, <- Zle_Qle. lia.
Qed.

End StatsFacts.

(** X9.  On a binary N×N array with [dmin <= 1] and [vmin <= 1] the diagonal
    run lengths add up to the number of 1s above the main diagonal, so
    DET is 1 when there is such a 1 and 0 when there is none; LAM is 1 when
    a vertical run was recorded and 0 otherwise. *)
Theorem DET_LAM_with_min_length_one (N : nat) (Rm : matrix Z)
    (dmin vmin : Z) :
  is_matrix N N Rm → binary_matrix Rm → dmin ≤ 1 → vmin ≤ 1 →
  let st := getRQAStats Rm dmin vmin in
  sumLengths (getRQADiags Rm) = upperOnes Rm ∧
  (DET st == if decide (upperOnes Rm = 0%Z) then 0 else 1)%Q ∧
  (LAM st == if decide (sumLengths (getRQAVerts Rm) = 0%Z) then 0 else 1)%Q.
Proof.
  intros HM HB Hd Hv. cbv zeta.
  pose proof (sumLengths_getRQADiags N Rm HM HB) as HD.
  split; [done|]. unfold getRQAStats. cbn [DET LAM]. split.
  - rewrite sumLengths_from_all by (done || apply getContinuousRuns_pos).
    fold (upperOnes Rm). rewrite HD. apply guarded_ratio_self.
  - rewrite sumLengths_from_all by (done || apply getContinuousRuns_pos).
    apply guarded_ratio_self.
Qed.

Lemma DET_LAM_with_min_length_one_witness :
  (DET (getRQAStats [[0; 1; 1]; [1; 0; 1]; [1; 1; 0]]%Z 1 1) == 1)%Q.
Proof.
  assert (HM : is_matrix 3 3 [[0; 1; 1]; [1; 0; 1]; [1; 1; 0]])
    by (split; [reflexivity|repeat constructor]).
  assert (HB : binary_matrix [[0; 1; 1]; [1; 0; 1]; [1; 1; 0]])
    by (repeat constructor; lia).
  exact (proj1 (proj2 (DET_LAM_with_min_length_one 3 _ 1 1 HM HB
                         ltac:(lia) ltac:(lia)))).
Defined.

(** X10.  On an N×N array RR is undefined (the NaN of 0/0) exactly when N = 0;
    otherwise it lies between 0 and 1, and RR times the number N*N of
    entries is the number of entries equal to 1. *)
Theorem getRQAStats_RR (N : nat) (Rm : matrix Z) (dmin vmin : Z) :
  is_matrix N N Rm →
  let nOnes := Z.of_nat (length (filter (λ v, v = 1) (flatten Rm))) in
  match RR (getRQAStats Rm dmin vmin) with
  | None => N = 0%nat
  | Some q =>
      N ≠ 0%nat ∧ (0 <= q)%Q ∧ (q <= 1)%Q ∧
      (q * inject_Z (Z.of_nat (N * N)) == inject_Z nOnes)%Q
  end.
Proof.
  intros HM. cbv zeta. unfold getRQAStats. cbn [RR].
  pose proof (size2_is_matrix N N Rm HM) as HS.
  destruct (decide (size2 Rm = 0%nat)) as [H0|H0]; [nia|].
  split; [nia|]. rewrite <- HS.
  set (c := Z.of_nat (length (filter (λ v, v = 1) (flatten Rm)))).
  set (n := Z.of_nat (size2 Rm)).
  assert (Hc : 0 ≤ c ≤ n).
  { unfold c, n, size2, flatten.
    pose proof (length_filter (λ v, v = 1) (concat Rm)). lia. }
  assert (Hn : (0 < inject_Z n)%Q).
  { change 0%Q with (inject_Z 0). rewrite <- Zlt_Qlt. unfold n. lia. }
  split; [|split].
  - apply Qle_shift_div_l; [done|]. rewrite Qmult_0_l.
    change 0%Q with (inject_Z 0). rewrite <- Zle_Qle. lia.
  - apply Qle_shift_div_r; [done|]. rewrite Qmult_1_l.
    rewrite <- Zle_Qle. lia.
  - unfold Qdiv. rewrite <- Qmult_assoc, (Qmult_comm (/ inject_Z n)).
    rewrite Qmult_inv_r; [apply Qmult_1_r|].
    intros H. rewrite H in Hn. by apply Qlt_irrefl in Hn.
Qed.

Lemma getRQAStats_RR_witness :
  match RR (getRQAStats [[0; 1; 1]; [1; 0; 1]; [1; 1; 0]] 2 2) with
  | None => False
  | Some q => (q * inject_Z 9 == inject_Z 6)%Q
  end.
Proof.
  assert (HM : is_matrix 3 3 [[0; 1; 1]; [1; 0; 1]; [1; 1; 0]])
    by (split; [reflexivity|repeat constructor]).
  pose proof (getRQAStats_RR 3 _ 2 2 HM) as H. cbv zeta in H.
  destruct (RR (getRQAStats [[0; 1; 1]; [1; 0; 1]; [1; 1; 0]] 2 2)).
  - exact (proj2 (proj2 (proj2 H))).
  - discriminate H.
Defined.

(** X11.  On an N×N array, when some diagonal run of length at least [dmin]
    was recorded, the mean diagonal length L lies between [dmin] and Lmax;
    when some row run of length at least [vmin] was recorded, the trapping
    time TT lies between [vmin] and Vmax. *)
Theorem getRQAStats_mean_lengths (N : nat) (Rm : matrix Z) (dmin vmin : Z) :
  is_matrix N N Rm →
  let st := getRQAStats Rm dmin vmin in
  (0 < sumCounts_from dmin (getRQADiags Rm) →
   (inject_Z dmin <= L st)%Q ∧ (L st <= inject_Z (Lmax st))%Q) ∧
  (0 < sumCounts_from vmin (getRQAVerts Rm) →
   (inject_Z vmin <= TT st)%Q ∧ (TT st <= inject_Z (Vmax st))%Q).
Proof.
  intros _. cbv zeta. unfold getRQAStats. cbn [L TT Lmax Vmax]. split; intros Hpos.
  - by apply mean_length_bounds; [apply getContinuousRuns_pos|].
  - by apply mean_length_bounds; [apply getContinuousRuns_pos|].
Qed.

Lemma getRQAStats_mean_lengths_witness :
  let st := getRQAStats [[0; 1; 1]; [1; 0; 1]; [1; 1; 0]] 2 1 in
  (inject_Z 2 <= L st)%Q ∧ (inject_Z 1 <= TT st)%Q.
Proof.
  cbv zeta.
  assert (HM : is_matrix 3 3 [[0; 1; 1]; [1; 0; 1]; [1; 1; 0]])
    by (split; [reflexivity|repeat constructor]).
  destruct (getRQAStats_mean_lengths 3 [[0; 1; 1]; [1; 0; 1]; [1; 1; 0]] 2 1 HM)
    as [HL HT].
  split; [apply HL|apply HT]; reflexivity.
Defined.

Section EntropyFacts.

Lemma ln_nonpos (p : R) : (0 < p)%R → (p <= 1)%R → (ln p <= 0)%R.
Proof.
  intros H0 H1. destruct (Rle_lt_or_eq_dec _ _ H1) as [Hlt| ->].
  - rewrite <- ln_1. left. by apply ln_increasing.
  - rewrite ln_1. lra.
Qed.

Lemma entropy_nonneg (ps : list Q) :
  Forall (λ p, 0 < p ∧ p <= 1)%Q ps → (0 <= entropy ps)%R.
Proof.
  intros HF. unfold entropy.
  assert (H : (sumR (map (λ p, Q2R p * ln (Q2R p)) ps) <= 0)%R); [|lra].
  induction HF as [|p ps [Hp0 Hp1] _ IH]; simpl; [lra|].
  apply Qlt_Rlt in Hp0. apply Qle_Rle in Hp1.
  rewrite RMicromega.Q2R_0 in Hp0. rewrite RMicromega.Q2R_1 in Hp1.
  pose proof (ln_nonpos _ Hp0 Hp1). nra.
Qed.

Lemma elem_le_sum (l : list (Z * Z)) c n :
  Forall (λ cn, 0 < cn.2) l → (c, n) ∈ l → n ≤ sumZ (map snd l).
Proof.
  intros HF Hin.
  assert (H0 : ∀ k, Forall (λ cn : Z * Z, 0 < cn.2) k → 0 ≤ sumZ (map snd k)).
  { induction 1 as [|[? ?] k ? _ IH]; simpl in *; lia. }
  induction HF as [|[c' n'] l Hn HF IH]; [by apply elem_of_nil in Hin|].
  simpl in *. specialize (H0 l HF).
  apply elem_of_cons in Hin as [[= -> ->]|Hin]; [lia|].
  specialize (IH Hin). lia.
Qed.

Lemma items_probabilities lo (m : gmap Z Z) :
  runs_pos m →
  Forall (λ p, 0 < p ∧ p <= 1)%Q
    (map (λ cn, inject_Z cn.2 / zeroDenom (inject_Z (sumCounts_from lo m)))%Q
         (items_from lo m)).
Proof.
  intros Hm. apply Forall_fmap, Forall_forall. intros [c n] Hin. simpl.
  assert (HF : Forall (λ cn : Z * Z, 0 < cn.2) (items_from lo m)).
  { apply Forall_forall. intros [c' n'] Hin'. unfold items_from in Hin'.
    apply list_elem_of_filter in Hin' as [_ Hin'].
    apply elem_of_map_to_list, Hm in Hin'. simpl. lia. }
  pose proof (elem_le_sum _ c n HF Hin) as Hle.
  rewrite Forall_forall in HF. pose proof (HF _ Hin) as Hn. simpl in Hn.
  fold (sumCounts_from lo m) in Hle.
  rewrite zeroDenom_inject_Z, decide_False by lia.
  assert (HS : (0 < inject_Z (sumCounts_from lo m))%Q).
  { change 0%Q with (inject_Z 0). rewrite <- Zlt_Qlt. lia. }
  split.
  - apply Qlt_shift_div_l; [done|]. rewrite Qmult_0_l.
    change 0%Q with (inject_Z 0). by rewrite <- Zlt_Qlt.
  - apply Qle_shift_div_r; [done|]. rewrite Qmult_1_l.
    by rewrite <- Zle_Qle.
Qed.

End EntropyFacts.

(** X12.  On an N×N array the entropy ENTR is never negative (over the real
    numbers, with the exact logarithm). *)
Theorem getRQAStats_ENTR_nonneg (N : nat) (Rm : matrix Z) (dmin vmin : Z) :
  is_matrix N N Rm →
  (0 <= ENTR (getRQAStats Rm dmin vmin))%R.
Proof.
  intros _. unfold getRQAStats. cbn [ENTR].
  apply entropy_nonneg, items_probabilities, getContinuousRuns_pos.
Qed.

Lemma getRQAStats_ENTR_nonneg_witness :
  let st := getRQAStats [[0; 1; 1]; [1; 0; 1]; [1; 1; 0]] 1 1 in
  (0 <= ENTR st)%R.
Proof.
  cbv zeta. apply (getRQAStats_ENTR_nonneg 3).
  split; [reflexivity|repeat constructor].
Defined.

Section LongestFacts.

Implicit Types (m : gmap Z Z) (x : list Z).

Lemma key_le_sumLengths m c n :
  runs_pos m → m !! c = Some n → c ≤ sumLengths m.
Proof.
  intros Hm Hc. pose proof (Hm c n Hc) as [Hc0 Hn0].
  unfold sumLengths. rewrite <- (insert_delete_id m c n Hc).
  rewrite sum_items_insert by apply lookup_delete_eq. simpl.
  assert (Hd : runs_pos (delete c m)).
  { intros k v Hk. apply lookup_delete_Some in Hk as [_ Hk]. by apply Hm in Hk. }
  pose proof (sumLengths_from_bounds 1 _ Hd) as Hb.
  unfold sumLengths in Hb. nia.
Qed.

Lemma sumZ_le_length x : binary x → sumZ x ≤ Z.of_nat (length x).
Proof. induction 1 as [|v x [-> | ->] _ IH]; simpl; lia. Qed.

Lemma run_le_length x c n :
  binary x → getContinuousRuns (x ++ [0]) !! c = Some n →
  c ≤ Z.of_nat (length x).
Proof.
  intros Hb Hc.
  assert (Hb0 : binary (x ++ [0])).
  { apply Forall_app. split; [done|]. by repeat constructor. }
  pose proof (key_le_sumLengths _ c n (getContinuousRuns_pos _) Hc).
  pose proof (sumLengths_le_ones _ Hb0) as H1.
  rewrite sumZ_app in H1. simpl in H1.
  pose proof (sumZ_le_length x Hb). lia.
Qed.

Lemma lookup_mergeAll (ms : list (gmap Z Z)) c n :
  mergeAll ms !! c = Some n → ∃ m n', m ∈ ms ∧ m !! c = Some n'.
Proof.
  revert n. induction ms as [|m ms IH]; intros n; simpl.
  - by rewrite lookup_empty.
  - rewrite lookup_mergeRuns.
    destruct (m !! c) as [a|] eqn:Ha.
    + intros _. exists m, a. split; [left|done].
    + destruct (mergeAll ms !! c) as [b|] eqn:Hb; [|done].
      intros _. destruct (IH b eq_refl) as (m' & n' & Hin & Hl).
      exists m', n'. split; [by right|done].
Qed.

Lemma longest_nonneg m : runs_pos m → 0 ≤ longest m.
Proof.
  intros Hm. unfold longest. case_decide as Hs; [|done].
  destruct (map_to_list m) as [|[c n] l] eqn:E.
  { apply map_to_list_empty_iff in E. subst m.
    rewrite map_size_empty in Hs. lia. }
  assert (Hc : m !! c = Some n).
  { apply elem_of_map_to_list. rewrite E. left. }
  pose proof (longest_ge m c n Hc) as Hge. unfold longest in Hge.
  rewrite decide_True, E in Hge by done. apply Hm in Hc. lia.
Qed.

End LongestFacts.

Section LongestBounds.

Lemma longest_runs_bounds (N : nat) (Rm : list (list Z)) :
  is_matrix N N Rm → binary_matrix Rm →
  0 ≤ longest (getRQADiags Rm) ≤ Z.of_nat (N - 1) ∧
  0 ≤ longest (getRQAVerts Rm) ≤ Z.of_nat N.
Proof.
  intros HM HB.
  split; (split; [apply longest_nonneg, getContinuousRuns_pos|]).
  - apply longest_le; [lia|]. intros c n Hc.
    rewrite getRQADiags_closed_diagonals in Hc.
    apply lookup_mergeAll in Hc as (m & n' & Hin & Hl).
    apply list_elem_of_fmap in Hin as (i & -> & Hi).
    apply elem_of_seq in Hi.
    apply run_le_length in Hl.
    + unfold diagonal in Hl. rewrite length_map, length_seq in Hl.
      rewrite (shape1_is_matrix N Rm HM) in Hi, Hl. lia.
    + unfold diagonal. apply Forall_fmap, Forall_forall. intros r _.
      by apply entry_binary.
  - apply longest_le; [lia|]. intros c n Hc.
    rewrite (getRQAVerts_closed_rows N Rm HM) in Hc.
    apply lookup_mergeAll in Hc as (m & n' & Hin & Hl).
    apply list_elem_of_fmap in Hin as (row & -> & Hrow).
    apply run_le_length in Hl.
    + destruct HM as [_ HF]. rewrite Forall_forall in HF.
      by rewrite (HF row Hrow) in Hl.
    + unfold binary_matrix in HB. rewrite Forall_forall in HB. by apply HB.
Qed.

End LongestBounds.

(** X13.  On a binary N×N array Lmax lies between 0 and N - 1 (0 when N = 0)
    and Vmax between 0 and N. *)
Theorem getRQAStats_longest_runs (N : nat) (Rm : matrix Z) (dmin vmin : Z) :
  is_matrix N N Rm → binary_matrix Rm →
  let st := getRQAStats Rm dmin vmin in
  0 ≤ Lmax st ≤ Z.of_nat (N - 1) ∧ 0 ≤ Vmax st ≤ Z.of_nat N.
Proof.
  intros HM HB. cbv zeta. unfold getRQAStats. cbn [Lmax Vmax].
  by apply longest_runs_bounds.
Qed.

Lemma getRQAStats_longest_runs_witness :
  Lmax (getRQAStats [[0; 1; 1]; [1; 0; 1]; [1; 1; 0]] 1 1) ≤ 2.
Proof.
  assert (HM : is_matrix 3 3 [[0; 1; 1]; [1; 0; 1]; [1; 1; 0]])
    by (split; [reflexivity|repeat constructor]).
  assert (HB : binary_matrix [[0; 1; 1]; [1; 0; 1]; [1; 1; 0]])
    by (repeat constructor; lia).
  exact (proj2 (proj1 (getRQAStats_longest_runs 3 _ 1 1 HM HB))).
Defined.


(** * Mutual nearest neighbours and the edge cases of the binarizer *)

Section TableFacts.

Context {A : Type}.
Implicit Types (f g : nat → nat → A) (D : list (list A)).

Lemma is_matrix_table f N M : is_matrix N M (table f N M).
Proof.
  unfold table. split; [by rewrite length_map, length_seq|].
  apply Forall_fmap, Forall_forall. intros i _. simpl.
  by rewrite length_map, length_seq.
Qed.

Lemma shape1_nonempty N M D : is_matrix N M D → (1 ≤ N)%nat → shape1 D = M.
Proof.
  intros [HN HF] H1. destruct D as [|row D]; simpl in *; [lia|].
  by apply Forall_inv in HF.
Qed.

Lemma omap_lookup_column D (j M : nat) (d : A) :
  Forall (λ row, length row = M) D → (j < M)%nat →
  omap (λ row, row !! j) D = map (λ row, default d (row !! j)) D.
Proof.
  intros HF Hj. induction HF as [|row D Hrow _ IH]; [done|]. csimpl.
  destruct (lookup_lt_is_Some_2 row j) as [v Hv]; [lia|].
  rewrite Hv. simpl. by rewrite IH.
Qed.

(** The rows of [D.T] are the columns of [D]. *)
Lemma transpose_columns N M D (d : A) :
  is_matrix N M D → (1 ≤ N)%nat →
  transpose D = map (λ j, map (λ row, default d (row !! j)) D) (seq 0 M).
Proof.
  intros HM HN. unfold transpose. rewrite (shape1_nonempty N M D HM HN).
  apply map_ext_in. intros j Hj. apply in_seq in Hj.
  apply (omap_lookup_column D j M d); [apply HM|lia].
Qed.

Lemma length_omap_lookup D (j M : nat) :
  Forall (λ row, length row = M) D → (j < M)%nat →
  length (omap (λ row, row !! j) D) = length D.
Proof.
  intros HF Hj. induction HF as [|row D Hrow _ IH]; [done|]. csimpl.
  destruct (lookup_lt_is_Some_2 row j) as [v Hv]; [lia|].
  rewrite Hv. simpl. by rewrite IH.
Qed.

Lemma is_matrix_transpose N M D :
  is_matrix N M D → (1 ≤ N)%nat → is_matrix M N (transpose D).
Proof.
  intros HM HN. unfold transpose. rewrite (shape1_nonempty N M D HM HN).
  split; [by rewrite length_map, length_seq|].
  apply Forall_fmap, Forall_forall. intros j Hj. apply elem_of_seq in Hj.
  simpl. rewrite (length_omap_lookup D j M); [apply HM|apply HM|lia].
Qed.

End TableFacts.

Section MutualFacts.

Implicit Types (B : list (list Z)).

Lemma entry_table (f : nat → nat → Z) N M i j :
  entry (table f N M) i j = if decide (i < N ∧ j < M)%nat then f i j else 0.
Proof.
  unfold entry, table. rewrite list_lookup_fmap.
  destruct (decide (i < N)%nat) as [Hi|Hi].
  - rewrite lookup_seq_lt by done. simpl. rewrite list_lookup_fmap.
    destruct (decide (j < M)%nat) as [Hj|Hj].
    + rewrite lookup_seq_lt by done. simpl. by rewrite decide_True.
    + rewrite lookup_seq_ge by lia. simpl. by rewrite decide_False by lia.
  - rewrite lookup_seq_ge by lia. simpl. by rewrite decide_False by lia.
Qed.

Lemma transpose_table_entries N M B :
  is_matrix N M B → (1 ≤ N)%nat →
  transpose B = table (λ j i, entry B i j) M N.
Proof.
  intros HM HN. rewrite (transpose_columns N M B 0 HM HN). unfold table.
  apply map_ext. intros j. apply (column_entries N M B j HM).
Qed.

Lemma zip_with_tables (op : Z → Z → Z) (f g : nat → nat → Z) N M :
  zip_with (zip_with op) (table f N M) (table g N M) =
  table (λ i j, op (f i j) (g i j)) N M.
Proof.
  unfold table.
  etransitivity;
    [apply (zip_with_fmap_same (zip_with op) (λ i, map (f i) (seq 0 M))
              (λ i, map (g i) (seq 0 M)) (seq 0 N))|].
  apply map_ext. intros i.
  apply (zip_with_fmap_same op (f i) (g i) (seq 0 M)).
Qed.

(** The product of an array with the transpose of another, entry by
    entry. *)
Lemma mutual_product N B1 B2 :
  is_matrix N N B1 → is_matrix N N B2 → (1 ≤ N)%nat →
  zip_with (zip_with Z.mul) B1 (transpose B2) =
  table (λ i j, entry B1 i j * entry B2 j i) N N.
Proof.
  intros H1 H2 HN.
  rewrite (transpose_table_entries N N B2 H2 HN).
  rewrite (matrix_entries N N B1 H1) at 1.
  apply (zip_with_tables Z.mul (entry B1) (λ j i, entry B2 i j)).
Qed.

Lemma entry_rowOnes_rows {A} (D : list A) (js : A → list nat) M i j (a : A) :
  D !! i = Some a → NoDup (js a) → (j < M)%nat →
  entry (map (λ row, rowOnes M (js row)) D) i j =
  if decide (j ∈ js a) then 1 else 0.
Proof.
  intros Hi Hnd Hj. unfold entry. rewrite list_lookup_fmap, Hi. simpl.
  rewrite lookup_rowOnes by done. by rewrite decide_True.
Qed.

End MutualFacts.

Section MutualKNN.

Variable argpartition : list Q → nat → list nat.

Lemma CSMToBinaryMutual_product (N : nat) (D : matrix Q) (Kappa : pynum)
    (k : nat) :
  is_matrix N N D →
  ¬ (num_val Kappa == 0)%Q →
  NNeighbs Kappa N = Some (PyInt (Z.of_nat k)) →
  (k < N)%nat →
  Forall (λ row, is_argpartition row k (argpartition row k) = true) D →
  Forall (λ col, is_argpartition col k (argpartition col k) = true)
         (transpose D) →
  CSMToBinaryMutual argpartition D Kappa =
  Some (table (λ i j,
          entry (map (λ row, rowOnes N (take k (argpartition row k))) D) i j *
          entry (map (λ col, rowOnes N (take k (argpartition col k)))
                     (transpose D)) j i) N N).
Proof.
  intros HM HK HNN HkN Hrows Hcols.
  assert (HN : (1 ≤ N)%nat) by lia.
  pose proof (is_matrix_transpose N N D HM HN) as HT.
  unfold CSMToBinaryMutual.
  rewrite (CSMToBinary_rows argpartition N N D Kappa k) by done.
  rewrite (CSMToBinary_rows argpartition N N (transpose D) Kappa k) by done.
  simpl. f_equal. apply mutual_product; [| |done].
  - split; [rewrite length_map; apply HM|].
    apply Forall_fmap, Forall_forall. intros row _. simpl.
    unfold rowOnes. by rewrite length_foldl_alter, length_replicate.
  - split; [rewrite length_map; apply HT|].
    apply Forall_fmap, Forall_forall. intros row _. simpl.
    unfold rowOnes. by rewrite length_foldl_alter, length_replicate.
Qed.

(** X14.  On an N×N array with a neighbour count [k < N] that [Kappa]
    (not 0) yields (the float64 product is rounded as the code rounds it),
    when [np.argpartition] meets its contract on the rows of [D] and of
    [D.T], [CSMToBinaryMutual] returns an N×N array whose entry (i, j)
    is 1 when [j] is among the [k] columns selected for row [i] of [D] and
    [i] is among the [k] selected for row [j] of [D.T], and 0 otherwise. *)
Theorem CSMToBinaryMutual_reciprocal (N : nat) (D : matrix Q)
    (Kappa : pynum) (k : nat) :
  is_matrix N N D →
  ¬ (num_val Kappa == 0)%Q →
  NNeighbs Kappa N = Some (PyInt (Z.of_nat k)) →
  (k < N)%nat →
  Forall (λ row, is_argpartition row k (argpartition row k) = true) D →
  Forall (λ col, is_argpartition col k (argpartition col k) = true)
         (transpose D) →
  ∃ B, CSMToBinaryMutual argpartition D Kappa = Some B ∧
       is_matrix N N B ∧
       ∀ i j rowi colj, D !! i = Some rowi → transpose D !! j = Some colj →
         entry B i j =
         (if decide (j ∈ take k (argpartition rowi k)) then 1 else 0) *
         (if decide (i ∈ take k (argpartition colj k)) then 1 else 0).
Proof.
  intros HM HK HNN HkN Hrows Hcols.
  assert (HN : (1 ≤ N)%nat) by lia.
  pose proof (is_matrix_transpose N N D HM HN) as HT.
  eexists. split; [by apply (CSMToBinaryMutual_product N D Kappa k)|].
  split; [apply is_matrix_table|].
  intros i j rowi colj Hi Hj.
  assert (HiN : (i < N)%nat).
  { apply lookup_lt_Some in Hi. destruct HM as [<- _]. done. }
  assert (HjN : (j < N)%nat).
  { apply lookup_lt_Some in Hj. destruct HT as [<- _]. done. }
  rewrite entry_table, decide_True by done.
  rewrite Forall_forall in Hrows. rewrite Forall_forall in Hcols.
  pose proof (Hrows _ (list_elem_of_lookup_2 _ _ _ Hi)) as Hri.
  pose proof (Hcols _ (list_elem_of_lookup_2 _ _ _ Hj)) as Hcj.
  rewrite (entry_rowOnes_rows D (λ row, take k (argpartition row k)) N i j rowi),
    (entry_rowOnes_rows (transpose D) (λ col, take k (argpartition col k))
       N j i colj); try done.
  - eapply sublist_NoDup; [exact (argpartition_NoDup _ _ _ Hcj)|].
    apply sublist_take.
  - eapply sublist_NoDup; [exact (argpartition_NoDup _ _ _ Hri)|].
    apply sublist_take.
Qed.

End MutualKNN.

Lemma CSMToBinaryMutual_reciprocal_witness :
  ∃ B, CSMToBinaryMutual argsort fiveOnALine (PyFloat (lit_val (3 # 10)))
       = Some B ∧ is_matrix 5 5 B.
Proof.
  destruct (CSMToBinaryMutual_reciprocal argsort 5 fiveOnALine
              (PyFloat (lit_val (3 # 10))) 2)
    as (B & HB & HM & _).
  - split; [reflexivity|repeat constructor].
  - intros H. vm_compute in H. discriminate H.
  - vm_compute. reflexivity.
  - lia.
  - repeat constructor.
  - repeat constructor.
  - exists B. exact (conj HB HM).
Defined.

Section MoreKNN.

Variable argpartition : list Q → nat → list nat.

(** X15.  When moreover [D] equals its transpose, the result of
    [CSMToBinaryMutual] is symmetric, and [getRQAVerts] applied to it
    gives the distribution of the vertical runs.  (The selection made by
    [np.argpartition] in a row is taken to depend on the values of that row
    only.) *)
Theorem CSMToBinaryMutual_symmetric (N : nat) (D : matrix Q)
    (Kappa : pynum) (k : nat) :
  is_matrix N N D →
  transpose D = D →
  ¬ (num_val Kappa == 0)%Q →
  NNeighbs Kappa N = Some (PyInt (Z.of_nat k)) →
  (k < N)%nat →
  Forall (λ row, is_argpartition row k (argpartition row k) = true) D →
  ∃ B, CSMToBinaryMutual argpartition D Kappa = Some B ∧
       is_matrix N N B ∧
       (∀ i j, entry B i j = entry B j i) ∧
       getRQAVerts B = vertsPerColumn B.
Proof.
  intros HM HT HK HNN HkN Hrows.
  assert (Hcols : Forall (λ col, is_argpartition col k (argpartition col k)
                                 = true) (transpose D)) by (by rewrite HT).
  eexists. split; [by apply (CSMToBinaryMutual_product argpartition N D Kappa k)|].
  rewrite HT.
  assert (Hsym : ∀ i j,
    entry (table (λ i j,
      entry (map (λ row, rowOnes N (take k (argpartition row k))) D) i j *
      entry (map (λ col, rowOnes N (take k (argpartition col k))) D) j i)
      N N) i j =
    entry (table (λ i j,
      entry (map (λ row, rowOnes N (take k (argpartition row k))) D) i j *
      entry (map (λ col, rowOnes N (take k (argpartition col k))) D) j i)
      N N) j i).
  { intros i j. rewrite !entry_table.
    destruct (decide (i < N ∧ j < N)%nat) as [[? ?]|Hn].
    - rewrite decide_True by done. apply Z.mul_comm.
    - by rewrite decide_False by lia. }
  split; [apply is_matrix_table|]. split; [exact Hsym|].
  apply (getRQAVerts_symmetric N); [apply is_matrix_table|exact Hsym].
Qed.

(** X16.  An integer [Kappa] that is not below the number M of columns makes
    [CSMToBinary] raise on a non-empty N×M array ([np.argpartition]: kth
    out of bounds). *)
Theorem CSMToBinary_count_out_of_bounds (N M : nat) (D : matrix Q) (z : Z) :
  is_matrix N M D → (1 ≤ N)%nat → (1 ≤ M)%nat → Z.of_nat M ≤ z →
  CSMToBinary argpartition D (PyInt z) = None.
Proof.
  intros HM HN HM1 Hz. unfold CSMToBinary.
  rewrite (shape1_nonempty N M D HM HN).
  assert (Hz0 : Qeq_bool (num_val (PyInt z)) 0 = false).
  { destruct (Qeq_bool _ _) eqn:E; [|done]. apply Qeq_bool_eq in E.
    simpl in E. unfold Qeq in E. simpl in E. lia. }
  rewrite Hz0, NNeighbs_count by lia.
  assert (Hs : (size2 D =? 0)%nat = false).
  { apply Nat.eqb_neq. rewrite (size2_is_matrix N M D HM). nia. }
  rewrite Hs. simpl.
  replace (Z.of_nat M <=? z) with true by (symmetry; by apply Z.leb_le).
  by rewrite orb_true_r.
Qed.

Lemma count_concat_const {A} (P : A → Prop) `{∀ a, Decision (P a)}
    (k : nat) (ls : list (list A)) :
  Forall (λ l, length (filter P l) = k) ls →
  length (filter P (concat ls)) = (length ls * k)%nat.
Proof.
  induction 1 as [|l ls Hl _ IH]; [done|]. simpl.
  by rewrite filter_app, length_app, Hl, IH.
Qed.

(** X17.  The recurrence rate of the plot [CSMToBinary] builds from an N×N
    array is k/N for the neighbour count [k < N] that [Kappa] yields
    ([np.round] of the float64 product [Kappa*N] for a float below 1),
    whatever admissible selection [np.argpartition] makes. *)
Theorem CSMToBinary_recurrence_rate (N : nat) (D : matrix Q) (Kappa : pynum)
    (k : nat) (dmin vmin : Z) :
  is_matrix N N D →
  ¬ (num_val Kappa == 0)%Q →
  NNeighbs Kappa N = Some (PyInt (Z.of_nat k)) →
  (k < N)%nat →
  Forall (λ row, is_argpartition row k (argpartition row k) = true) D →
  ∃ B q, CSMToBinary argpartition D Kappa = Some B ∧
         RR (getRQAStats B dmin vmin) = Some q ∧
         (q == inject_Z (Z.of_nat k) / inject_Z (Z.of_nat N))%Q.
Proof.
  intros HM HK HNN HkN Hrows.
  set (B := map (λ row, rowOnes N (take k (argpartition row k))) D).
  assert (HB : is_matrix N N B).
  { split; [unfold B; rewrite length_map; apply HM|].
    apply Forall_fmap, Forall_forall. intros row _. simpl.
    unfold rowOnes. by rewrite length_foldl_alter, length_replicate. }
  assert (Hcount : length (filter (λ v, v = 1) (flatten B)) = (N * k)%nat).
  { unfold flatten. rewrite (count_concat_const _ k).
    - by rewrite (proj1 HB).
    - apply Forall_fmap.
      eapply Forall_impl;
        [apply Forall_and; exact (conj (proj2 HM) Hrows)|].
      intros row [Hlen Ha]. simpl.
      rewrite count_ones_rowOnes.
      + rewrite length_take_le; [done|].
        rewrite (argpartition_length _ _ _ Ha). lia.
      + eapply sublist_NoDup; [exact (argpartition_NoDup _ _ _ Ha)|].
        apply sublist_take.
      + apply Forall_forall. intros j Hj. apply subseteq_take in Hj.
        apply (argpartition_elem _ _ _ Ha) in Hj. lia. }
  exists B. eexists. split; [by apply (CSMToBinary_rows argpartition N N)|].
  unfold getRQAStats. cbn [RR].
  rewrite (size2_is_matrix N N B HB), Hcount.
  rewrite decide_False by nia. split; [reflexivity|].
  rewrite !Nat2Z.inj_mul, !inject_Z_mult. field.
  intros H0. unfold Qeq in H0. simpl in H0. lia.
Qed.

End MoreKNN.

Lemma CSMToBinaryMutual_symmetric_witness :
  ∃ B, CSMToBinaryMutual argsort fiveOnALine (PyFloat (lit_val (3 # 10)))
       = Some B ∧ getRQAVerts B = vertsPerColumn B.
Proof.
  destruct (CSMToBinaryMutual_symmetric argsort 5 fiveOnALine
              (PyFloat (lit_val (3 # 10))) 2)
    as (B & HB & _ & _ & HV).
  - split; [reflexivity|repeat constructor].
  - reflexivity.
  - intros H. vm_compute in H. discriminate H.
  - vm_compute. reflexivity.
  - lia.
  - repeat constructor.
  - exists B. exact (conj HB HV).
Defined.

Lemma CSMToBinary_count_out_of_bounds_witness :
  CSMToBinary argsort [[3; 1; 2; 5]; [0; 4; 1; 1]]%Q (PyInt 4) = None.
Proof.
  apply (CSMToBinary_count_out_of_bounds argsort 2 4); try lia.
  split; [reflexivity|repeat constructor].
Defined.

(** The float 0.3 on a 5×5 array: two neighbours in a row, RR = 2/5. *)
Lemma CSMToBinary_recurrence_rate_witness :
  ∃ B q, CSMToBinary argsort fiveOnALine (PyFloat (lit_val (3 # 10)))
         = Some B ∧ RR (getRQAStats B 2 2) = Some q ∧ (q == 2 # 5)%Q.
Proof.
  destruct (CSMToBinary_recurrence_rate argsort 5 fiveOnALine
              (PyFloat (lit_val (3 # 10))) 2 2 2)
    as (B & q & HB & HR & Hq).
  - split; [reflexivity|repeat constructor].
  - intros H. vm_compute in H. discriminate H.
  - vm_compute. reflexivity.
  - lia.
  - repeat constructor.
  - exists B, q. split; [done|]. split; [done|]. rewrite Hq. reflexivity.
Defined.


(** * The all-ones plot *)

Section AllOnes.

Lemma scan_ones (k : nat) : ∀ r c,
  scan (Scanner r IN_ONES c) (replicate k 1) =
  Scanner r IN_ONES (c + Z.of_nat k).
Proof.
  unfold scan.
  induction k as [|k IH]; intros r c.
  - simpl. f_equal. lia.
  - cbn [replicate foldl].
    change (scan_step (Scanner r IN_ONES c) 1) with (Scanner r IN_ONES (c + 1)).
    rewrite IH. f_equal. lia.
Qed.

(** A single run of [k] ones closed by a 0. *)
Lemma getContinuousRuns_one_run (k : nat) :
  (1 ≤ k)%nat →
  getContinuousRuns (replicate k 1 ++ [0]) = {[Z.of_nat k := 1]}.
Proof.
  intros Hk. destruct k as [|k]; [lia|].
  unfold getContinuousRuns. rewrite scan_snoc. simpl replicate.
  change (scan scan_init (1 :: replicate k 1))
    with (scan (Scanner ∅ IN_ONES 1) (replicate k 1)).
  rewrite scan_ones. unfold scan_step. simpl.
  apply map_eq. intros c. rewrite lookup_record_run.
  replace (1 + Z.of_nat k) with (Z.of_nat (S k)) by lia.
  unfold cnt. rewrite lookup_empty. simpl.
  rewrite lookup_singleton. by case_decide.
Qed.

Lemma map_const_seq {A} (f : nat → A) (a : A) (s n : nat) :
  (∀ r, (s ≤ r < s + n)%nat → f r = a) → map f (seq s n) = replicate n a.
Proof.
  revert s. induction n as [|n IH]; intros s Hf; simpl; [done|].
  rewrite Hf by lia. f_equal. apply IH. intros r Hr. apply Hf. lia.
Qed.

Lemma entry_ones N M r c :
  (r < N)%nat → (c < M)%nat → entry (ones N M) r c = 1.
Proof.
  intros Hr Hc. unfold entry, ones.
  rewrite lookup_replicate_2 by done. simpl.
  by rewrite lookup_replicate_2.
Qed.

Lemma is_matrix_ones N M : is_matrix N M (ones N M).
Proof.
  unfold is_matrix, ones. rewrite length_replicate. split; [done|].
  apply Forall_replicate, length_replicate.
Qed.

Lemma binary_ones N M : binary_matrix (ones N M).
Proof. apply Forall_replicate, Forall_replicate. by right. Qed.

Lemma diagonal_ones N i :
  diagonal (ones N N) i = replicate (N - i) 1.
Proof.
  unfold diagonal. rewrite (shape1_is_matrix N _ (is_matrix_ones N N)).
  replace (shape0 (ones N N)) with N
    by (unfold shape0, ones; by rewrite length_replicate).
  replace (N `min` (N - i))%nat with (N - i)%nat by lia.
  apply map_const_seq. intros r Hr. apply entry_ones; lia.
Qed.

Lemma mergeAll_lookup_Some (ms : list (gmap Z Z)) m c n :
  m ∈ ms → m !! c = Some n → is_Some (mergeAll ms !! c).
Proof.
  intros Hin Hc. induction ms as [|m' ms IH]; [by apply elem_of_nil in Hin|].
  simpl. rewrite lookup_mergeRuns.
  apply elem_of_cons in Hin as [->|Hin].
  - rewrite Hc. by destruct (mergeAll ms !! c).
  - destruct (IH Hin) as [b Hb]. rewrite Hb. by destruct (m' !! c).
Qed.

Lemma longest_attained (m : gmap Z Z) c n :
  m !! c = Some n → longest m ≤ c → longest m = c.
Proof. intros Hc Hle. pose proof (longest_ge m c n Hc). lia. Qed.

End AllOnes.

(** X18.  For the all-ones N×N array with N >= 1: RR is 1, Lmax is N - 1 (the
    first superdiagonal is one run) and Vmax is N (every row is one run). *)
Theorem getRQAStats_all_ones (N : nat) (dmin vmin : Z) :
  (1 ≤ N)%nat →
  let st := getRQAStats (ones N N) dmin vmin in
  (∃ rr, RR st = Some rr ∧ rr == 1)%Q ∧
  Lmax st = Z.of_nat (N - 1) ∧
  Vmax st = Z.of_nat N.
Proof.
  intros HN. cbv zeta.
  pose proof (longest_runs_bounds N _ (is_matrix_ones N N) (binary_ones N N))
    as [[HL0 HL] [HV0 HV]].
  unfold getRQAStats. cbn [RR Lmax Vmax]. split; [|split].
  - rewrite decide_False
      by (rewrite (size2_is_matrix N N _ (is_matrix_ones N N)); nia).
    eexists. split; [reflexivity|].
    assert (Hc : length (filter (λ v, v = 1) (flatten (ones N N))) =
                 size2 (ones N N)).
    { unfold size2, flatten.
      assert (HF : Forall (λ v, v = 1) (concat (ones N N))).
      { apply Forall_concat, Forall_replicate, Forall_replicate. done. }
      induction HF as [|v l Hv _ IH]; [done|].
      rewrite filter_cons_True by done. simpl. by rewrite IH. }
    rewrite Hc. apply Qmult_inv_r.
    rewrite (size2_is_matrix N N _ (is_matrix_ones N N)).
    intros H. unfold Qeq in H. simpl in H. nia.
  - destruct (decide (N = 1)%nat) as [->|HN1].
    { apply Z.le_antisymm; [exact HL|exact HL0]. }
    assert (Hkey : is_Some (getRQADiags (ones N N) !! Z.of_nat (N - 1))).
    { rewrite getRQADiags_closed_diagonals.
      rewrite (shape1_is_matrix N _ (is_matrix_ones N N)).
      apply (mergeAll_lookup_Some _ {[Z.of_nat (N - 1) := 1]} _ 1).
      - apply list_elem_of_fmap. exists 1%nat. split.
        + rewrite diagonal_ones. symmetry.
          apply getContinuousRuns_one_run. lia.
        + apply elem_of_seq. lia.
      - apply lookup_singleton_eq. }
    destruct Hkey as [n Hn]. by apply (longest_attained _ _ n).
  - assert (Hkey : is_Some (getRQAVerts (ones N N) !! Z.of_nat N)).
    { rewrite (getRQAVerts_closed_rows N _ (is_matrix_ones N N)).
      apply (mergeAll_lookup_Some _ {[Z.of_nat N := 1]} _ 1).
      - apply list_elem_of_fmap. exists (replicate N 1). split.
        + symmetry. by apply getContinuousRuns_one_run.
        + unfold ones. apply elem_of_replicate. split; [done|lia].
      - apply lookup_singleton_eq. }
    destruct Hkey as [n Hn]. by apply (longest_attained _ _ n).
Qed.

Lemma getRQAStats_all_ones_witness :
  Lmax (getRQAStats (ones 5 5) 2 2) = 4 ∧ Vmax (getRQAStats (ones 5 5) 2 2) = 5.
Proof.
  exact (proj2 (getRQAStats_all_ones 5 2 2 ltac:(lia))).
Defined.


(** * Thresholding and the distance matrix *)

Section ThresholdFacts.

Context {A : Type} (leb : A → A → bool).

Lemma entry_of_CSM2CRPEps (CSM : list (list A)) eps i j :
  entry_of (CSM2CRPEps leb CSM eps) i j =
  (λ v, if leb v eps then 1 else 0) <$> entry_of CSM i j.
Proof.
  unfold entry_of, CSM2CRPEps. rewrite list_lookup_fmap.
  destruct (CSM !! i) as [row|]; simpl; [|done].
  by rewrite list_lookup_fmap.
Qed.

Lemma is_matrix_CSM2CRPEps N M (CSM : list (list A)) eps :
  is_matrix N M CSM → is_matrix N M (CSM2CRPEps leb CSM eps).
Proof.
  intros [HN HF]. unfold CSM2CRPEps. split; [by rewrite length_map|].
  apply Forall_fmap. eapply Forall_impl; [exact HF|].
  intros row Hrow. simpl. by rewrite length_map.
Qed.

Lemma binary_CSM2CRPEps (CSM : list (list A)) eps :
  binary_matrix (CSM2CRPEps leb CSM eps).
Proof.
  unfold CSM2CRPEps. apply Forall_fmap, Forall_forall. intros row _. simpl.
  apply Forall_fmap, Forall_forall. intros v _. simpl.
  destruct (leb v eps); auto.
Qed.

End ThresholdFacts.

(** X19.  [CSM2CRPEps] keeps the shape of the array, returns only 0s and 1s,
    has a 1 exactly where the entry is at most [eps], and is monotone in
    [eps]: a 1 stays a 1 under a larger threshold.  (Entries are
    rationals.) *)
Theorem CSM2CRPEps_threshold (N M : nat) (CSM : matrix Q) (eps eps' : Q) :
  is_matrix N M CSM → (eps <= eps')%Q →
  is_matrix N M (CSM2CRPEps Qle_bool CSM eps) ∧
  binary_matrix (CSM2CRPEps Qle_bool CSM eps) ∧
  (∀ i j v, entry_of CSM i j = Some v →
     (entry_of (CSM2CRPEps Qle_bool CSM eps) i j = Some 1 ↔ (v <= eps)%Q)) ∧
  (∀ i j, entry_of (CSM2CRPEps Qle_bool CSM eps) i j = Some 1 →
          entry_of (CSM2CRPEps Qle_bool CSM eps') i j = Some 1).
Proof.
  intros HM Hle.
  split; [by apply is_matrix_CSM2CRPEps|].
  split; [apply binary_CSM2CRPEps|].
  assert (H1 : ∀ e i j v, entry_of CSM i j = Some v →
     (entry_of (CSM2CRPEps Qle_bool CSM e) i j = Some 1 ↔ (v <= e)%Q)).
  { intros e i j v Hv. rewrite entry_of_CSM2CRPEps, Hv. simpl.
    destruct (Qle_bool v e) eqn:E.
    - apply Qle_bool_iff in E. done.
    - split; [done|]. intros Hc. apply Qle_bool_iff in Hc. congruence. }
  split; [apply H1|].
  intros i j Hone.
  destruct (entry_of CSM i j) as [v|] eqn:Hv.
  - apply (H1 eps' i j v Hv). apply (H1 eps i j v Hv) in Hone.
    by eapply Qle_trans.
  - rewrite entry_of_CSM2CRPEps, Hv in Hone. done.
Qed.

Lemma CSM2CRPEps_threshold_witness :
  binary_matrix (CSM2CRPEps Qle_bool [[0; 2]; [2; 0]]%Q 1%Q).
Proof.
  assert (HM : is_matrix 2 2 [[0; 2]; [2; 0]]%Q)
    by (split; [reflexivity|repeat constructor]).
  assert (Hle : (1 <= 3)%Q) by (intros H; discriminate H).
  exact (proj1 (proj2 (CSM2CRPEps_threshold 2 2 _ 1%Q 3%Q HM Hle))).
Defined.

Local Open Scope R_scope.

Section MoreCSMFacts.

Implicit Types (x y : list R) (X Y : list (list R)).

Lemma dot_comm x : ∀ y, dot x y = dot y x.
Proof.
  unfold dot. induction x as [|a x IH]; intros [|b y]; simpl; try done.
  rewrite IH. lra.
Qed.

Lemma csmEntry_comm x y : csmEntry x y = csmEntry y x.
Proof.
  unfold csmEntry. rewrite (dot_comm x y).
  by replace (sqnorm x + sqnorm y - 2 * dot y x)
    with (sqnorm y + sqnorm x - 2 * dot y x) by lra.
Qed.

Lemma entry_of_getCSM X Y i j :
  entry_of (getCSM X Y) i j =
  x ← X !! i; y ← Y !! j; Some (csmEntry x y).
Proof.
  rewrite getCSM_entries. unfold entry_of. rewrite list_lookup_fmap.
  destruct (X !! i) as [x|]; simpl; [|done].
  rewrite list_lookup_fmap. by destruct (Y !! j).
Qed.

(** The expansion is the squared Euclidean distance. *)
Lemma entry_of_getCSM_swap X Y i j :
  entry_of (getCSM X Y) i j = entry_of (getCSM Y X) j i.
Proof.
  rewrite !entry_of_getCSM.
  destruct (X !! i) as [x|], (Y !! j) as [y|]; simpl; try done.
  by rewrite csmEntry_comm.
Qed.

Lemma expansion_distance x : ∀ y,
  length x = length y →
  sqnorm x + sqnorm y - 2 * dot x y = sumR (zip_with (λ a b, (a - b) ^ 2) x y).
Proof.
  unfold sqnorm, dot.
  induction x as [|a x IH]; intros [|b y] Hlen; simpl in *; try lia; [lra|].
  specialize (IH y ltac:(lia)). lra.
Qed.

Lemma sum_squares_nonneg x : ∀ y, 0 <= sumR (zip_with (λ a b, (a - b) ^ 2) x y).
Proof.
  induction x as [|a x IH]; intros [|b y]; cbn [zip_with sumR foldr];
    try lra.
  specialize (IH y). pose proof (pow2_ge_0 (a - b)). unfold sumR in *. lra.
Qed.

Lemma is_matrix_getCSM X Y : is_matrix (length X) (length Y) (getCSM X Y).
Proof.
  rewrite getCSM_entries. split; [by rewrite length_map|].
  apply Forall_fmap, Forall_forall. intros x _. simpl. by rewrite length_map.
Qed.

End MoreCSMFacts.

(** X20.  For an M×d array [X] and an N×d array [Y], the entry (i, j) of
    [getCSM X Y] is the Euclidean distance between row [i] of [X] and row
    [j] of [Y], the square root of the sum of the squared coordinate
    differences (over the real numbers: rounding is not modelled). *)
Theorem getCSM_euclidean (M N d : nat) (X Y : matrix R) :
  is_matrix M d X → is_matrix N d Y →
  ∀ i j x y, X !! i = Some x → Y !! j = Some y →
    entry_of (getCSM X Y) i j =
    Some (sqrt (sumR (zip_with (λ a b, (a - b) ^ 2) x y))).
Proof.
  intros HX HY i j x y Hx Hy.
  rewrite entry_of_getCSM, Hx, Hy. simpl. f_equal.
  unfold csmEntry. rewrite expansion_distance.
  - rewrite Rmax_right; [done|apply sum_squares_nonneg].
  - rewrite (is_matrix_lookup _ _ _ _ _ HX Hx).
    by rewrite (is_matrix_lookup _ _ _ _ _ HY Hy).
Qed.

Lemma getCSM_euclidean_witness :
  entry_of (getCSM [[0; 0]] [[3; 4]]) 0 0 =
  Some (sqrt (sumR (zip_with (λ a b, (a - b) ^ 2) [0; 0] [3; 4]))).
Proof.
  apply (getCSM_euclidean 1 1 2).
  - split; [reflexivity|repeat constructor].
  - split; [reflexivity|repeat constructor].
  - reflexivity.
  - reflexivity.
Defined.

(** X21.  For an M×d array [X] and an N×d array [Y], [getCSM X Y] is M×N,
    [getCSM Y X] is N×M and each is the transpose of the other (over the
    real numbers). *)
Theorem getCSM_transposed (M N d : nat) (X Y : matrix R) :
  is_matrix M d X → is_matrix N d Y →
  is_matrix M N (getCSM X Y) ∧ is_matrix N M (getCSM Y X) ∧
  ∀ i j, entry_of (getCSM X Y) i j = entry_of (getCSM Y X) j i.
Proof.
  intros HX HY. split; [|split].
  - pose proof (is_matrix_getCSM X Y) as H.
    by rewrite (proj1 HX), (proj1 HY) in H.
  - pose proof (is_matrix_getCSM Y X) as H.
    by rewrite (proj1 HX), (proj1 HY) in H.
  - intros i j. apply entry_of_getCSM_swap.
Qed.

Lemma getCSM_transposed_witness :
  entry_of (getCSM [[1; 2]; [3; 4]] [[0; 1]]) 1%nat 0%nat =
  entry_of (getCSM [[0; 1]] [[1; 2]; [3; 4]]) 0%nat 1%nat.
Proof.
  assert (HX : is_matrix 2 2 [[1; 2]; [3; 4]])
    by (split; [reflexivity|repeat constructor]).
  assert (HY : is_matrix 1 2 [[0; 1]])
    by (split; [reflexivity|repeat constructor]).
  exact (proj2 (proj2 (getCSM_transposed 2 1 2 _ _ HX HY)) 1%nat 0%nat).
Defined.


(** * The sliding window and the persistence score *)

Section NormaliseFacts.

Implicit Types (l row : list R).

Lemma sumR_shift l m : sumR (map (λ v, v - m) l) = sumR l - INR (length l) * m.
Proof.
  induction l as [|a l IH]; [simpl; lra|].
  cbn [map sumR foldr length]. fold (sumR (map (λ v, v - m) l)). fold (sumR l).
  rewrite IH, S_INR. lra.
Qed.

Lemma sumR_scale l s : sumR (map (λ v, v / s) l) = sumR l / s.
Proof.
  unfold sumR. induction l as [|a l IH]; simpl; [lra|]. rewrite IH. lra.
Qed.

Lemma sqnorm_nonneg l : 0 <= sqnorm l.
Proof.
  unfold sqnorm, sumR. induction l as [|a l IH]; cbn [map foldr]; [lra|].
  pose proof (pow2_ge_0 a). lra.
Qed.

Lemma sqnorm_scale l s : s ≠ 0 → sqnorm (map (λ v, v / s) l) = sqnorm l / (s * s).
Proof.
  intros Hs. unfold sqnorm, sumR.
  induction l as [|a l IH]; cbn [map foldr]; [field; done|].
  rewrite IH. field. done.
Qed.

Lemma sum_centre row : row ≠ [] → sumR (centre row) = 0.
Proof.
  intros Hne. unfold centre, mean. rewrite sumR_shift.
  assert (INR (length row) ≠ 0).
  { apply not_0_INR. destruct row; [done|]. simpl. lia. }
  field. done.
Qed.

Lemma normalise_unit c :
  sqnorm c ≠ 0 → sqnorm (normalise c) = 1 ∧ sumR (normalise c) = sumR c / sqrt (sqnorm c).
Proof.
  intros Hc. pose proof (sqnorm_nonneg c) as H0.
  assert (Hs : sqrt (sqnorm c) ≠ 0).
  { intros Hz. apply sqrt_eq_0 in Hz; [done|done]. }
  unfold normalise. split; [|apply sumR_scale].
  rewrite sqnorm_scale by done. rewrite sqrt_sqrt by done. field. done.
Qed.

Lemma np_maxR_spec (l : list R) :
  l ≠ [] → (∀ v, v ∈ l → v <= np_maxR l) ∧ np_maxR l ∈ l.
Proof.
  assert (Hfold : ∀ t a,
    a <= foldl Rmax a t ∧ (∀ v, v ∈ t → v <= foldl Rmax a t) ∧
    (foldl Rmax a t = a ∨ foldl Rmax a t ∈ t)).
  { induction t as [|b t IH]; intros a; simpl.
    - split; [lra|]. split; [|by left].
      intros v Hv. by apply elem_of_nil in Hv.
    - destruct (IH (Rmax a b)) as (H1 & H2 & H3).
      pose proof (Rmax_l a b). pose proof (Rmax_r a b).
      split; [lra|]. split.
      + intros v Hv. apply elem_of_cons in Hv as [->|Hv]; [lra|by apply H2].
      + destruct H3 as [H3|H3]; [|right; by right].
        rewrite H3. unfold Rmax. destruct (Rle_dec a b); [right; left|by left]. }
  destruct l as [|a t]; [done|]. intros _. simpl.
  destruct (Hfold t a) as (H1 & H2 & H3). split.
  - intros v Hv. apply elem_of_cons in Hv as [->|Hv]; [done|by apply H2].
  - destruct H3 as [->|H3]; [left|by right].
Qed.

End NormaliseFacts.

Section MorePersistenceFacts.

Variable getTimeDerivative : matrix R → Z → matrix R.
Variable pca_fit_transform : matrix R → matrix R.
Variable estimateFundamentalFreq : list R → bool → R * R.
Variable getSlidingWindowVideo : matrix R → Z → R → R → matrix R.
Variable exn : Type.
Variable doRipsFiltrationDM : matrix R → Z → Z → exn + list (list (R * R)).

(** X23.  When [doRipsFiltrationDM] returns and has a diagram of degree 1,
    [getPersistencesBlock] (window dimension positive) prints nothing and
    returns that diagram as ['I'] with the self-similarity matrix of the
    sliding window as ['D']; ['P'] is 0 for an empty diagram, and otherwise
    the largest [death - birth] of the diagram: it bounds every pair and
    is attained by one. *)
Theorem getPersistencesBlock_max_persistence (XP : matrix R) (dim : Z)
    (estimateFreq : bool) (derivWin : Z) (PDs2 : list (list (R * R)))
    (I1 : list (R * R)) :
  let XS := getSlidingWindow getTimeDerivative pca_fit_transform
              estimateFundamentalFreq getSlidingWindowVideo
              XP dim estimateFreq derivWin in
  (0 < dim)%Z →
  doRipsFiltrationDM (getCSM XS XS) 1 41 = inr PDs2 →
  PDs2 !! 1%nat = Some I1 →
  ∃ P, getPersistencesBlock getTimeDerivative pca_fit_transform
         estimateFundamentalFreq getSlidingWindowVideo exn doRipsFiltrationDM
         XP dim estimateFreq derivWin =
       ({| res_D := getCSM XS XS; res_P := P; res_I := I1 |}, []) ∧
       (I1 = [] → P = 0) ∧
       (∀ bd, bd ∈ I1 → bd.2 - bd.1 <= P) ∧
       (I1 ≠ [] → ∃ bd, bd ∈ I1 ∧ P = bd.2 - bd.1).
Proof.
  intros XS _ Hok HI. unfold getPersistencesBlock. fold XS. rewrite Hok, HI.
  eexists. split; [reflexivity|].
  destruct I1 as [|bd0 I1'].
  - simpl. split; [done|]. split; [|done].
    intros bd Hbd. by apply elem_of_nil in Hbd.
  - rewrite decide_True by (simpl; lia).
    set (l := map (λ bd : R * R, bd.2 - bd.1) (bd0 :: I1')).
    destruct (np_maxR_spec l) as [Hub Hin]; [done|].
    split; [done|]. split.
    + intros bd Hbd. apply Hub. unfold l.
      apply list_elem_of_fmap. by exists bd.
    + intros _. unfold l in Hin. apply list_elem_of_fmap in Hin
        as (bd & Heq & Hbd). by exists bd.
Qed.

(** X24.  A series with at most [dim] frames (after the optional time
    derivative; [dim] positive) is not windowed: [getSlidingWindow]
    returns the 1×2 array [[0, 0]], and ['D'] in the result of
    [getPersistencesBlock] is the 1×1 array [[0]]. *)
Theorem getPersistencesBlock_short_series (XP : matrix R) (dim : Z)
    (estimateFreq : bool) (derivWin : Z) :
  let X := if (-1 <? derivWin)%Z then getTimeDerivative XP derivWin else XP in
  (0 < dim)%Z → (Z.of_nat (shape0 X) ≤ dim)%Z →
  getSlidingWindow getTimeDerivative pca_fit_transform
    estimateFundamentalFreq getSlidingWindowVideo
    XP dim estimateFreq derivWin = [[0; 0]] ∧
  res_D (getPersistencesBlock getTimeDerivative pca_fit_transform
           estimateFundamentalFreq getSlidingWindowVideo exn
           doRipsFiltrationDM XP dim estimateFreq derivWin).1 = [[0]].
Proof.
  intros X _ Hshort.
  assert (HW : getSlidingWindow getTimeDerivative pca_fit_transform
                 estimateFundamentalFreq getSlidingWindowVideo
                 XP dim estimateFreq derivWin = [[0; 0]]).
  { unfold getSlidingWindow. fold X.
    by rewrite (proj2 (Z.leb_le _ _) Hshort). }
  split; [exact HW|].
  unfold getPersistencesBlock. rewrite HW.
  assert (HD : getCSM [[0; 0]] [[0; 0]] = [[0]]).
  { rewrite getCSM_entries. simpl. by rewrite csmEntry_self. }
  rewrite HD.
  destruct (doRipsFiltrationDM [[0]] 1 41) as [e|PDs2]; [done|].
  by destruct (PDs2 !! 1%nat).
Qed.

(** X25.  For a series with more than [dim] frames ([dim] positive),
    [getSlidingWindow] centres and then normalises each row of the window
    that [getSlidingWindowVideo] returns; when no row is constant, every
    row of the result has sum 0 and squared norm 1 (over the real
    numbers). *)
Theorem getSlidingWindow_normalised (XP : matrix R) (dim : Z)
    (estimateFreq : bool) (derivWin : Z) :
  let X := if (-1 <? derivWin)%Z then getTimeDerivative XP derivWin else XP in
  let Tau := if estimateFreq
             then (estimateFundamentalFreq
                     (flatten (pca_fit_transform X)) false).1 / IZR dim
             else 1 in
  let XS0 := getSlidingWindowVideo X dim Tau 1 in
  (0 < dim < Z.of_nat (shape0 X))%Z →
  Forall (λ row, sqnorm (centre row) ≠ 0) XS0 →
  getSlidingWindow getTimeDerivative pca_fit_transform
    estimateFundamentalFreq getSlidingWindowVideo
    XP dim estimateFreq derivWin = map (λ row, normalise (centre row)) XS0 ∧
  Forall (λ row, sumR row = 0 ∧ sqnorm row = 1)
    (getSlidingWindow getTimeDerivative pca_fit_transform
       estimateFundamentalFreq getSlidingWindowVideo
       XP dim estimateFreq derivWin).
Proof.
  intros X Tau XS0 [_ Hlong] Hnd.
  assert (HW : getSlidingWindow getTimeDerivative pca_fit_transform
                 estimateFundamentalFreq getSlidingWindowVideo
                 XP dim estimateFreq derivWin
               = map (λ row, normalise (centre row)) XS0).
  { unfold getSlidingWindow. fold X.
    rewrite (proj2 (Z.leb_gt _ _) Hlong).
    rewrite map_map. unfold XS0, Tau. by destruct estimateFreq. }
  split; [exact HW|]. rewrite HW.
  apply Forall_fmap. eapply Forall_impl; [exact Hnd|].
  intros row Hrow. simpl.
  destruct (normalise_unit (centre row) Hrow) as [H1 H2].
  split; [|done]. rewrite H2, sum_centre; [lra|].
  intros ->. apply Hrow. unfold centre, sqnorm. simpl. done.
Qed.

End MorePersistenceFacts.

Lemma getPersistencesBlock_max_persistence_witness :
  ∃ P, getPersistencesBlock (λ X _, X) (λ X, X) (λ _ _, (1, 1))
         (λ X _ _ _, X) unit (λ _ _ _, inr [[]; [(0, 1); (1, 3)]])
         [[1; 2]] 5 false (-1) =
       ({| res_D := getCSM [[0; 0]] [[0; 0]]; res_P := P;
           res_I := [(0, 1); (1, 3)] |}, []) ∧
       (∀ bd, bd ∈ [(0, 1); (1, 3)] → bd.2 - bd.1 <= P).
Proof.
  destruct (getPersistencesBlock_max_persistence (λ X _, X) (λ X, X)
              (λ _ _, (1, 1)) (λ X _ _ _, X) unit
              (λ _ _ _, inr [[]; [(0, 1); (1, 3)]])
              [[1; 2]] 5 false (-1) [[]; [(0, 1); (1, 3)]] [(0, 1); (1, 3)]
              eq_refl eq_refl eq_refl) as (P & HP & _ & Hub & _).
  exists P. split; [exact HP|exact Hub].
Defined.

Lemma getPersistencesBlock_short_series_witness :
  getSlidingWindow (λ X _, X) (λ X, X) (λ _ _, (1, 1)) (λ X _ _ _, X)
    [[1; 2]] 5 true (-1) = [[0; 0]].
Proof.
  refine (proj1 (getPersistencesBlock_short_series (λ X _, X) (λ X, X)
                   (λ _ _, (1, 1)) (λ X _ _ _, X) unit (λ _ _ _, inl tt)
                   [[1; 2]] 5 true (-1) _ _)); simpl; lia.
Defined.

Lemma getSlidingWindow_normalised_witness :
  Forall (λ row, sumR row = 0 ∧ sqnorm row = 1)
    (getSlidingWindow (λ X _, X) (λ X, X) (λ _ _, (1, 1)) (λ X _ _ _, X)
       [[1; 2]; [3; 5]] 1 false (-1)).
Proof.
  refine (proj2 (getSlidingWindow_normalised (λ X _, X) (λ X, X)
                   (λ _ _, (1, 1)) (λ X _ _ _, X)
                   [[1; 2]; [3; 5]] 1 false (-1) _ _)).
  - simpl. lia.
  - simpl. repeat constructor;
      unfold centre, mean, sqnorm, sumR; simpl; intros H; nra.
Defined.
